(** * Planar multi-link arm: forward kinematics and the iterative
      inverse-kinematics solver of [kinematic_arm_simulation_notebook.ipynb]

    The notebook computes with numpy [float64] values.  The development is
    parametric in the arithmetic: the numpy and float operations the code
    calls are the fields of the class [Numpy], the solver is written once
    over any such structure, and the structural properties are proved for
    every instance.  The instance [R_numpy] reads the operations as exact
    real arithmetic; it is used where a property needs the laws of
    arithmetic, and for concrete runs.

    The module-level variables of the notebook ([num_links], [link_lengths],
    [reached_target], [movement_count], [angles], [target]) are the fields
    of [State].  A numpy array is a mutable object handled by reference:
    [heap] maps references to array contents, [angles.copy()] allocates a
    new array and [a[i] = v] writes in place. *)

From Stdlib Require Import Reals Lra.
From stdpp Require Import base list.

Set Default Proof Using "Type".

(** ** The arithmetic the notebook relies on *)

Class Numpy (F : Type) := {
  (** conversion of a Python [int] in a float expression *)
  of_nat : nat → F;
  (** [+], [-], [*], [/], [<] on float64 *)
  fadd : F → F → F;
  fsub : F → F → F;
  fmul : F → F → F;
  fdiv : F → F → F;
  flt : F → F → bool;
  (** [np.cos], [np.sin], [np.sum] of a one-dimensional array,
      [np.linalg.norm] of a two-element array, [np.radians] *)
  np_cos : F → F;
  np_sin : F → F;
  np_sum : list F → F;
  np_linalg_norm : F * F → F;
  np_radians : F → F;
  (** the literals [0.01], [1e-1] and [0.1] *)
  lit_0_01 : F;
  lit_1e_1 : F;
  lit_0_1 : F;
}.

(** ** Exceptions and results *)

Inductive exn : Set :=
  | IndexError   (** a list or array index out of range *)
  | InvalidRef.  (** a reference that names no array (never raised by Python) *)

Inductive result (A : Type) : Type :=
  | Ok (a : A)
  | Raise (e : exn).
Arguments Ok {A} a.
Arguments Raise {A} e.

#[global] Instance result_ret : MRet result := λ A a, Ok a.
#[global] Instance result_bind : MBind result := λ A B f m,
  match m with
  | Ok a => f a
  | Raise e => Raise e
  end.

(** [l[-1]] *)
Definition py_last {A} (l : list A) : result A :=
  match last l with
  | Some a => Ok a
  | None => Raise IndexError
  end.

(** [l[i]] for [i >= 0] *)
Definition py_getitem {A} (l : list A) (i : nat) : result A :=
  match l !! i with
  | Some a => Ok a
  | None => Raise IndexError
  end.

Definition loc := nat.

Section Model.
Context {F : Type} {np : Numpy F}.

(** two-element arrays: [u - v] *)
Definition vsub (u v : F * F) : F * F :=
  (fsub u.1 v.1, fsub u.2 v.2).

(** ** Program state *)

Record State := mkState {
  heap : list (list F);
  num_links : nat;
  link_lengths : list F;
  reached_target : bool;
  movement_count : nat;
  angles : loc;
  target : option (F * F);
}.

Definition set_heap (h : list (list F)) (s : State) : State :=
  mkState h (num_links s) (link_lengths s) (reached_target s)
          (movement_count s) (angles s) (target s).
Definition set_num_links (n : nat) (s : State) : State :=
  mkState (heap s) n (link_lengths s) (reached_target s)
          (movement_count s) (angles s) (target s).
Definition set_link_lengths (ll : list F) (s : State) : State :=
  mkState (heap s) (num_links s) ll (reached_target s)
          (movement_count s) (angles s) (target s).
Definition set_reached_target (b : bool) (s : State) : State :=
  mkState (heap s) (num_links s) (link_lengths s) b
          (movement_count s) (angles s) (target s).
Definition set_movement_count (n : nat) (s : State) : State :=
  mkState (heap s) (num_links s) (link_lengths s) (reached_target s)
          n (angles s) (target s).
Definition set_angles (a : loc) (s : State) : State :=
  mkState (heap s) (num_links s) (link_lengths s) (reached_target s)
          (movement_count s) a (target s).
Definition set_target (t : option (F * F)) (s : State) : State :=
  mkState (heap s) (num_links s) (link_lengths s) (reached_target s)
          (movement_count s) (angles s) t.

(** ** Computations that read and write the state and may raise *)

Definition M (A : Type) : Type := State → result (A * State).

#[global] Instance M_ret : MRet M := λ A a s, Ok (a, s).
#[global] Instance M_bind : MBind M := λ A B f m s,
  match m s with
  | Ok (a, s') => f a s'
  | Raise e => Raise e
  end.

Definition gets {A} (proj : State → A) : M A := λ s, Ok (proj s, s).
Definition modify (upd : State → State) : M unit := λ s, Ok (tt, upd s).
Definition lift {A} (r : result A) : M A := λ s,
  match r with
  | Ok a => Ok (a, s)
  | Raise e => Raise e
  end.

(** the contents of the array a reference names *)
Definition deref (l : loc) : M (list F) := λ s,
  match heap s !! l with
  | Some v => Ok (v, s)
  | None => Raise InvalidRef
  end.

(** a new array object with the given contents *)
Definition alloc (v : list F) : M loc := λ s,
  Ok (length (heap s), set_heap (heap s ++ [v]) s).

(** [a.copy()] *)
Definition ndarray_copy (a : loc) : M loc :=
  v ← deref a; alloc v.

(** [a[i]] *)
Definition getitem (a : loc) (i : nat) : M F :=
  v ← deref a; lift (py_getitem v i).

(** [a[i] = x], in place *)
Definition setitem (a : loc) (i : nat) (x : F) : M unit :=
  v ← deref a;
  if decide (i < length v)
  then modify (λ s, set_heap (<[a := <[i := x]> v]> (heap s)) s)
  else lift (Raise IndexError).

(** [for i in range(lo, lo + n): acc = body(i, acc)] *)
Fixpoint for_range {A} (lo n : nat) (body : nat → A → M A) (acc : A) : M A :=
  match n with
  | 0 => mret acc
  | S n' => acc' ← body lo acc; for_range (S lo) n' body acc'
  end.

(** ** Forward kinematics *)

(** The loop of [forward_kinematics], from index [i] for [n] rounds, on the
    values of [link_lengths] and of the array [angles]. *)
Fixpoint fk_loop (ll angles : list F) (i n : nat) (x y : list F)
  : result (list F * list F) :=
  match n with
  | 0 => Ok (x, y)
  | S n' =>
      xl ← py_last x;
      li ← py_getitem ll i;
      let x' := x ++ [fadd xl (fmul li (np_cos (np_sum (take (S i) angles))))] in
      yl ← py_last y;
      li ← py_getitem ll i;
      let y' := y ++ [fadd yl (fmul li (np_sin (np_sum (take (S i) angles))))] in
      fk_loop ll angles (S i) n' x' y'
  end.

Definition fk (nl : nat) (ll angles : list F) : result (list F * list F) :=
  fk_loop ll angles 0 nl [of_nat 0] [of_nat 0].

Definition forward_kinematics (angles : loc) : M (list F * list F) :=
  v ← deref angles;
  nl ← gets num_links;
  ll ← gets link_lengths;
  lift (fk nl ll v).

(** ** Link-length adaptation *)

Definition optimize_link_lengths (target : F * F) (angles : loc) : M (list F) :=
  let total_distance := np_linalg_norm target in
  nl ← gets num_links;
  let link_length := fdiv total_distance (of_nat nl) in
  mret (replicate nl link_length).

(** ** Inverse kinematics *)

(** [x, y = forward_kinematics(a); np.array([x[-1], y[-1]])] *)
Definition end_effector (a : loc) : M (F * F) :=
  xy ← forward_kinematics a;
  ex ← lift (py_last xy.1);
  ey ← lift (py_last xy.2);
  mret (ex, ey).

(** the finite-difference quotient of the solver *)
Definition gradient_of (target end_effector_temp error : F * F) : F :=
  fdiv (fsub (np_linalg_norm (vsub end_effector_temp target))
             (np_linalg_norm error))
       lit_0_01.

(** the body of [for i in range(num_links)] *)
Definition ik_joint (target : F * F) (angles : loc) (alpha : F)
    (error : F * F) (i : nat) : M unit :=
  angles_temp ← ndarray_copy angles;
  t ← getitem angles_temp i;
  _ ← setitem angles_temp i (fadd t lit_0_01);
  end_effector_temp ← end_effector angles_temp;
  let gradient := gradient_of target end_effector_temp error in
  a ← getitem angles i;
  setitem angles i (fsub a (fmul alpha gradient)).

(** the body of [for _ in range(max_iters)]; the result tells whether the
    loop is left by [break] *)
Definition ik_iteration (target : F * F) (angles : loc) (alpha : F) : M bool :=
  ee ← end_effector angles;
  let error := vsub target ee in
  if flt (np_linalg_norm error) lit_1e_1
  then
    _ ← modify (set_reached_target true);
    mret true
  else
    _ ← modify (set_reached_target false);
    nl ← gets num_links;
    _ ← for_range 0 nl (λ i _, ik_joint target angles alpha error i) tt;
    mret false.

Fixpoint ik_loop (target : F * F) (angles : loc) (alpha : F)
    (max_iters : nat) : M unit :=
  match max_iters with
  | 0 => mret tt
  | S k =>
      brk ← ik_iteration target angles alpha;
      if brk : bool then mret tt else ik_loop target angles alpha k
  end.

Definition inverse_kinematics (target : option (F * F)) (angles : loc)
    (alpha : F) (max_iters : nat) : M loc :=
  match target with
  | None => mret angles
  | Some t =>
      ll ← optimize_link_lengths t angles;
      _ ← modify (set_link_lengths ll);
      _ ← ik_loop t angles alpha max_iters;
      mret angles
  end.

(** the call [inverse_kinematics(target, angles)] with the default
    [alpha=0.1, max_iters=100] *)
Definition inverse_kinematics_default (target : option (F * F)) (angles : loc)
  : M loc :=
  inverse_kinematics target angles lit_0_1 100.

(** ** The callers: tick, joint-count slider, click *)

(** [update(frame)]; the result is the data handed to the plot *)
Definition update (frame : nat) : M (list F * list F) :=
  r ← gets reached_target;
  _ ← (if negb r
       then
         t ← gets target;
         a ← gets angles;
         a' ← inverse_kinematics_default t a;
         _ ← modify (set_angles a');
         c ← gets movement_count;
         modify (set_movement_count (c + 1))
       else mret tt);
  a ← gets angles;
  forward_kinematics a.

(** [update_num_links(val)], with [val] the slider's integer value *)
Definition update_num_links (val : nat) : M unit :=
  _ ← modify (set_num_links val);
  _ ← modify (set_link_lengths (replicate val (of_nat 2)));
  a ← alloc (replicate val (np_radians (of_nat 45)));
  _ ← modify (set_angles a);
  _ ← modify (set_target (Some (of_nat 3, of_nat 1)));
  _ ← modify (set_reached_target false);
  _ ← modify (set_movement_count 0);
  _ ← update 0;
  mret tt.

(** [on_click(event)] with [event.xdata], [event.ydata] *)
Definition on_click (xdata ydata : option F) : M unit :=
  match xdata, ydata with
  | Some x, Some y =>
      _ ← modify (set_target (Some (x, y)));
      _ ← modify (set_reached_target false);
      modify (set_movement_count 0)
  | _, _ => mret tt
  end.

(** ** The program as a whole *)

(** The module-level state once the notebook's cells have run, before the
    first tick: two joints at 45 degrees, links [2, 2], target [(3, 1)]. *)
Definition notebook_start : State :=
  mkState [replicate 2 (np_radians (of_nat 45))] 2 [of_nat 2; of_nat 2]
          false 0 0 (Some (of_nat 3, of_nat 1)).

(** What the plotting library calls: the animation's tick, the slider's
    change and the mouse click. *)
Inductive event : Type :=
  | Tick (frame : nat)
  | SliderChanged (val : nat)
  | ButtonPress (xdata ydata : option F).

Definition handle (e : event) : M unit :=
  match e with
  | Tick frame => _ ← update frame; mret tt
  | SliderChanged val => update_num_links val
  | ButtonPress xdata ydata => on_click xdata ydata
  end.

(** The states the program can be in: [notebook_start], and every state a
    handler returns in from such a state. *)
Inductive reachable : State → Prop :=
  | reachable_start : reachable notebook_start
  | reachable_step s e s' :
      reachable s → handle e s = Ok (tt, s') → reachable s'.

End Model.

Arguments State F : clear implicits.
Arguments M F A : clear implicits.
Arguments event F : clear implicits.


(** ** Vocabulary of the statements *)

Section Vocabulary.
Context {F : Type} {np : Numpy F}.

(** Position [k+1] is position [k] moved by link [k] at the cumulative
    orientation [np.sum(angles[:k+1])]. *)
Definition fk_chain (ll v x y : list F) (k : nat) : Prop :=
  ∃ xk yk lk,
    x !! k = Some xk ∧ y !! k = Some yk ∧ ll !! k = Some lk ∧
    x !! S k = Some (fadd xk (fmul lk (np_cos (np_sum (take (S k) v))))) ∧
    y !! S k = Some (fadd yk (fmul lk (np_sin (np_sum (take (S k) v))))).

(** The end effector [(x[-1], y[-1])] of forward kinematics, on the values
    of [num_links], [link_lengths] and of the angle array. *)
Definition ee_of (nl : nat) (ll v : list F) : result (F * F) :=
  xy ← fk nl ll v;
  ex ← py_last xy.1;
  ey ← py_last xy.2;
  mret (ex, ey).

(** The test [np.linalg.norm(target - end_effector) < 1e-1] succeeds for
    the angles [v]. *)
Definition within_tolerance (T : F * F) (nl : nat) (ll v : list F) : Prop :=
  ∃ ee, ee_of nl ll v = Ok ee ∧
        flt (np_linalg_norm (vsub T ee)) lit_1e_1 = true.

(** The steps of one sweep, that is of the inner loop of one iteration,
    from the angle vector [v]; [err] is the error vector of that iteration,
    the one computed before the sweep.  The joints are handled in order: the
    step for joint [i] is the one taken when [i] copies have been made.  It
    puts in [temps] a copy of the current vector with entry [i] increased by
    [0.01], and replaces entry [i] of the current vector by its current,
    unperturbed value [vi] minus [alpha] times the difference quotient
    [(norm(eet - T) - norm(err)) / 0.01], with [eet] the end effector of that
    copy. *)
Inductive descent_run (T : F * F) (alpha : F) (nl : nat) (ll : list F)
    (err : F * F) : list F → list (list F) → list F → Prop :=
  | descent_nil v : descent_run T alpha nl ll err v [] v
  | descent_snoc v temps v1 vi eet :
      descent_run T alpha nl ll err v temps v1 →
      v1 !! length temps = Some vi →
      ee_of nl ll (<[length temps := fadd vi lit_0_01]> v1) = Ok eet →
      descent_run T alpha nl ll err v
        (temps ++ [<[length temps := fadd vi lit_0_01]> v1])
        (<[length temps :=
             fsub vi
               (fmul alpha
                  (fdiv (fsub (np_linalg_norm (vsub eet T)) (np_linalg_norm err))
                        lit_0_01))]> v1).

(** The sweeps of one call of the solver, from the angle vector [v]: each
    sweep starts from angles whose end effector [ee] fails the convergence
    test, takes [target - ee] as its error vector, and handles every joint
    once, making [nl] copies. *)
Inductive solver_run (T : F * F) (alpha : F) (nl : nat) (ll : list F)
  : list F → list (list F) → list F → Prop :=
  | solver_stop v : solver_run T alpha nl ll v [] v
  | solver_sweep v ee temps1 v1 temps2 v2 :
      ee_of nl ll v = Ok ee →
      flt (np_linalg_norm (vsub T ee)) lit_1e_1 = false →
      descent_run T alpha nl ll (vsub T ee) v temps1 v1 →
      length temps1 = nl →
      solver_run T alpha nl ll v1 temps2 v2 →
      solver_run T alpha nl ll v (temps1 ++ temps2) v2.

(** The perturbed copy the solver builds for joint [i] in an iteration that
    starts from [v] and ends with [v']: joints before [i] carry the values
    the iteration has already given them, joint [i] is moved by [0.01],
    joints after [i] still have their starting values. *)
Definition perturbed_copy (v v' : list F) (i : nat) (vi : F) : list F :=
  <[i := fadd vi lit_0_01]> (take i v' ++ drop i v).

(** What an iteration starting from [v] with error vector [err] does to
    joint [i], in terms of the iteration's result [v']. *)
Definition joint_descent (T : F * F) (alpha : F) (nl : nat) (ll : list F)
    (err : F * F) (v v' : list F) (i : nat) : Prop :=
  ∃ vi eet,
    v !! i = Some vi ∧
    ee_of nl ll (perturbed_copy v v' i vi) = Ok eet ∧
    v' !! i = Some (fsub vi (fmul alpha (gradient_of T eet err))).

(** The heap while the inner loop of an iteration runs: the iteration
    started in heap [h0] with the array [a] holding [v] and error vector
    [err], joints [0..i-1] are done.  The array [a] now holds [vcur]; every
    other array of [h0] is as it was; the perturbed copies made so far are
    new arrays [temps], one per joint, behind the arrays of [h0]. *)
Definition sweep_inv (T : F * F) (alpha : F) (nl : nat) (ll : list F)
    (err : F * F) (h0 : list (list F)) (a : loc) (v : list F)
    (i : nat) (h : list (list F)) : Prop :=
  ∃ vcur temps,
    h = <[a := vcur]> h0 ++ temps ∧
    length vcur = length v ∧
    length temps = i ∧
    drop i vcur = drop i v ∧
    descent_run T alpha nl ll err v temps vcur ∧
    (∀ j, j < i →
       ∃ vj, v !! j = Some vj ∧ temps !! j = Some (perturbed_copy v vcur j vj)) ∧
    (∀ j, j < i → joint_descent T alpha nl ll err v vcur j).

(** The link lengths [optimize_link_lengths] gives for target [T] and
    [nl] joints. *)
Definition adapted_lengths (T : F * F) (nl : nat) : list F :=
  replicate nl (fdiv (np_linalg_norm T) (of_nat nl)).

(** What a run of the solver loop can tell about the flag [b] it leaves, the
    final angles [v'] and the arrays [temps] it has created: a loop of no
    round leaves everything as it was; after at least one round the flag is
    true only if the final angles pass the convergence test. *)
Definition loop_outcome (T : F * F) (nl : nat) (ll : list F) (k : nat)
    (b0 : bool) (v : list F) (b : bool) (v' : list F)
    (temps : list (list F)) : Prop :=
  match k with
  | 0 => b = b0 ∧ v' = v ∧ temps = []
  | S _ => b = true → within_tolerance T nl ll v'
  end.

(** The global [angles] names an array with one entry per joint, and there
    is a target. *)
Definition well_formed (s : State F) : Prop :=
  ∃ v T,
    heap s !! angles s = Some v ∧ length v = num_links s ∧ target s = Some T.

(** The flag tells the truth: when it is true, the link lengths are the ones
    adapted to the current target and the current angles pass the
    convergence test for it. *)
Definition flag_truthful (s : State F) : Prop :=
  reached_target s = true →
  ∃ v T,
    heap s !! angles s = Some v ∧ target s = Some T ∧
    link_lengths s = adapted_lengths T (num_links s) ∧
    within_tolerance T (num_links s) (link_lengths s) v.

(** All links have one and the same length, and there is one per joint. *)
Definition links_uniform (s : State F) : Prop :=
  ∃ l, link_lengths s = replicate (num_links s) l.

(** The handlers called one after the other, for a list of events. *)
Fixpoint handle_all (es : list (event F)) : M F unit :=
  match es with
  | [] => mret tt
  | e :: es' => _ ← handle e; handle_all es'
  end.

End Vocabulary.

(** ** Exact real arithmetic as an instance *)

(** [R_numpy] is an idealisation of float64: its operations neither round
    nor overflow nor underflow.  It serves two purposes only.  Concrete runs
    of the generic theorems are made in it.  And a property is proved in it
    only if it rests on facts that rounding keeps ([0 * x = 0] for finite
    [x], the square root of 0, the sign of a quotient) or if it is stated
    as an identity of exact arithmetic that the floating-point program meets
    up to rounding; no property that float64 breaks at the inputs of the
    program, such as an exact bound on a distance, is stated in it. *)

Definition R_lt (x y : R) : bool :=
  if Rlt_dec x y then true else false.

#[global] Instance R_numpy : Numpy R := {|
  of_nat := INR;
  fadd := Rplus;
  fsub := Rminus;
  fmul := Rmult;
  fdiv := Rdiv;
  flt := R_lt;
  np_cos := cos;
  np_sin := sin;
  np_sum := foldr Rplus 0%R;
  np_linalg_norm := λ v, sqrt (v.1 * v.1 + v.2 * v.2);
  np_radians := λ d, (d * PI / 180)%R;
  lit_0_01 := (1 / 100)%R;
  lit_1e_1 := (1 / 10)%R;
  lit_0_1 := (1 / 10)%R;
|}.

(** A two-joint arm for concrete runs: one array, at reference 0, with both
    angles 0; both links of length 1; the given target and flag. *)
Definition arm2 (T : R * R) (reached : bool) : State R :=
  mkState [[0; 0]%R] 2 [1; 1]%R reached 0 0 (Some T).

(** The notebook's state after a click at the base [(0, 0)], and after the
    tick that follows it. *)
Definition click_origin : State R :=
  set_movement_count 0
    (set_reached_target false (set_target (Some (0, 0)%R) notebook_start)).

Definition origin_reached : State R :=
  set_movement_count 1
    (set_reached_target true
       (set_link_lengths (adapted_lengths (0, 0)%R 2) click_origin)).

(** A three-joint state whose angle array has two entries only. *)
Definition short_arm : State R :=
  mkState [[0; 0]%R] 3 [1; 1; 1]%R false 0 0 (Some (0, 3)%R).

(** The two-joint arm of [arm2] with target [(0, 2)], its angle array
    carrying a third entry that no joint stands for. *)
Definition arm2_long : State R :=
  mkState [[0; 0; 7]%R] 2 [1; 1]%R false 0 0 (Some (0, 2)%R).

(** The two-joint arm with a second array: the angles with joint 1 moved. *)
Definition arm2_pair : State R :=
  mkState [[0; 0]%R; [0; 1 / 100]%R] 2 [1; 1]%R false 0 0 (Some (0, 2)%R).

(** * Properties *)

(** ** Results and lists *)

Lemma py_last_lookup {A} (l : list A) (n : nat) :
  length l = S n → ∃ a, l !! n = Some a ∧ py_last l = Ok a.
Proof.
  intros Hlen. unfold py_last. rewrite last_lookup, Hlen. simpl.
  destruct (l !! n) as [a|] eqn:E; [eauto|].
  apply lookup_ge_None in E. lia.
Qed.

Lemma py_getitem_lt {A} (l : list A) (i : nat) :
  i < length l → ∃ a, l !! i = Some a ∧ py_getitem l i = Ok a.
Proof.
  intros Hi. unfold py_getitem.
  destruct (lookup_lt_is_Some_2 l i Hi) as [a Ha]. rewrite Ha. eauto.
Qed.

(** A computation that returns lets the rest of the program run on its
    result. *)
Lemma bind_Ok {F A B} (m : M F A) (f : A → M F B) (s : State F) r s' :
  m s = Ok (r, s') → (m ≫= f) s = f r s'.
Proof. intros E. unfold mbind, M_bind. by rewrite E. Qed.

(** [mstep E] runs the first command of the program in the goal, using the
    equation [E] for it. *)
Tactic Notation "mstep" uconstr(E) := rewrite (bind_Ok _ _ _ _ _ E).

Section Properties.
Context {F : Type} {np : Numpy F}.
Implicit Types (s : State F) (v ll x y : list F) (a : loc).

(** ** Forward kinematics *)

Lemma fk_loop_spec ll v n : ∀ i x y,
  length x = S i → length y = S i → i + n ≤ length ll →
  ∃ x' y',
    fk_loop ll v i n x y = Ok (x', y') ∧
    length x' = S (i + n) ∧ length y' = S (i + n) ∧
    x `prefix_of` x' ∧ y `prefix_of` y' ∧
    ∀ k, i ≤ k < i + n → fk_chain ll v x' y' k.
Proof.
  induction n as [|n IH]; intros i x y Hx Hy Hll; simpl.
  - exists x, y. rewrite Nat.add_0_r. repeat split; auto. intros k Hk. lia.
  - destruct (py_last_lookup x i Hx) as (xl & Hxl & ->).
    destruct (py_last_lookup y i Hy) as (yl & Hyl & ->).
    destruct (py_getitem_lt ll i) as (li & Hli & ->); [lia|]. simpl.
    set (x1 := x ++ [_]). set (y1 := y ++ [_]).
    destruct (IH (S i) x1 y1) as (x' & y' & -> & Hx' & Hy' & Px & Py & Hch).
    { subst x1. rewrite length_app, Hx. simpl. lia. }
    { subst y1. rewrite length_app, Hy. simpl. lia. }
    { lia. }
    exists x', y'. replace (i + S n) with (S i + n) by lia.
    repeat split; auto.
    + etrans; [|exact Px]. by apply prefix_app_r.
    + etrans; [|exact Py]. by apply prefix_app_r.
    + intros k Hk. destruct (decide (k = i)) as [->|Hne]; [|apply Hch; lia].
      exists xl, yl, li. repeat split; auto.
      * eapply prefix_lookup_Some; [|exact Px]. subst x1.
        by rewrite lookup_app_l by lia.
      * eapply prefix_lookup_Some; [|exact Py]. subst y1.
        by rewrite lookup_app_l by lia.
      * eapply prefix_lookup_Some; [|exact Px]. subst x1.
        rewrite lookup_app_r by lia. by rewrite Hx, Nat.sub_diag.
      * eapply prefix_lookup_Some; [|exact Py]. subst y1.
        rewrite lookup_app_r by lia. by rewrite Hy, Nat.sub_diag.
Qed.

Lemma fk_spec nl ll v :
  nl ≤ length ll →
  ∃ x y,
    fk nl ll v = Ok (x, y) ∧
    length x = S nl ∧ length y = S nl ∧
    x !! 0 = Some (of_nat 0) ∧ y !! 0 = Some (of_nat 0) ∧
    ∀ k, k < nl → fk_chain ll v x y k.
Proof.
  intros Hll. unfold fk.
  destruct (fk_loop_spec ll v nl 0 [of_nat 0] [of_nat 0])
    as (x & y & Hfk & Hx & Hy & Px & Py & Hch); auto.
  exists x, y. repeat split; auto.
  - by eapply prefix_lookup_Some; [|exact Px].
  - by eapply prefix_lookup_Some; [|exact Py].
  - intros k Hk. apply Hch. lia.
Qed.

Lemma ee_of_total nl ll v : nl ≤ length ll → ∃ ee, ee_of nl ll v = Ok ee.
Proof.
  intros Hll. unfold ee_of.
  destruct (fk_spec nl ll v Hll) as (x & y & -> & Hx & Hy & _). simpl.
  destruct (py_last_lookup x nl Hx) as (ex & _ & ->).
  destruct (py_last_lookup y nl Hy) as (ey & _ & ->). simpl. eauto.
Qed.

(** ** The state and its primitives *)

Lemma set_heap_set_heap h h' s : set_heap h' (set_heap h s) = set_heap h' s.
Proof. reflexivity. Qed.

Lemma ret_spec {A} (r : A) s : (mret r : M F A) s = Ok (r, s).
Proof. reflexivity. Qed.

Lemma gets_spec {A} (proj : State F → A) s : gets proj s = Ok (proj s, s).
Proof. reflexivity. Qed.

Lemma modify_spec (upd : State F → State F) s : modify upd s = Ok (tt, upd s).
Proof. reflexivity. Qed.

Lemma deref_spec a s v : heap s !! a = Some v → deref a s = Ok (v, s).
Proof. intros E. unfold deref. by rewrite E. Qed.

Lemma ndarray_copy_spec a s v :
  heap s !! a = Some v →
  ndarray_copy a s = Ok (length (heap s), set_heap (heap s ++ [v]) s).
Proof.
  intros Ha. unfold ndarray_copy.
  by mstep (deref_spec _ _ _ Ha).
Qed.

Lemma getitem_spec a i s v t :
  heap s !! a = Some v → v !! i = Some t → getitem a i s = Ok (t, s).
Proof.
  intros Ha Hi. unfold getitem. mstep (deref_spec _ _ _ Ha).
  unfold py_getitem. by rewrite Hi.
Qed.

Lemma setitem_spec a i t s v :
  heap s !! a = Some v → i < length v →
  setitem a i t s = Ok (tt, set_heap (<[a := <[i := t]> v]> (heap s)) s).
Proof.
  intros Ha Hi. unfold setitem. mstep (deref_spec _ _ _ Ha).
  by rewrite decide_True.
Qed.

Lemma forward_kinematics_spec a s v :
  heap s !! a = Some v →
  forward_kinematics a s = lift (fk (num_links s) (link_lengths s) v) s.
Proof.
  intros Ha. unfold forward_kinematics.
  by mstep (deref_spec _ _ _ Ha).
Qed.

Lemma end_effector_spec a s v ee :
  heap s !! a = Some v →
  ee_of (num_links s) (link_lengths s) v = Ok ee →
  end_effector a s = Ok (ee, s).
Proof.
  intros Ha. unfold ee_of, end_effector.
  destruct (fk _ _ v) as [[x y]|e] eqn:Efk; [|done]. simpl.
  erewrite bind_Ok; [|by rewrite (forward_kinematics_spec _ _ v), Efk].
  simpl. destruct (py_last x) as [ex|]; [|done].
  destruct (py_last y) as [ey|]; [|done]. simpl. by intros [= <-].
Qed.

(** ** One joint of the inner loop *)

Lemma ik_joint_spec T a alpha err i s v vi :
  heap s !! a = Some v → v !! i = Some vi →
  num_links s ≤ length (link_lengths s) →
  ∃ eet,
    ee_of (num_links s) (link_lengths s) (<[i := fadd vi lit_0_01]> v) = Ok eet ∧
    ik_joint T a alpha err i s =
      Ok (tt, set_heap
                (<[a := <[i := fsub vi (fmul alpha (gradient_of T eet err))]> v]>
                   (heap s) ++ [<[i := fadd vi lit_0_01]> v]) s).
Proof.
  intros Ha Hi Hll.
  assert (Hia : i < length v) by by eapply lookup_lt_Some.
  assert (Hah : a < length (heap s)) by by eapply lookup_lt_Some.
  destruct (ee_of_total (num_links s) (link_lengths s)
              (<[i := fadd vi lit_0_01]> v) Hll) as [eet Heet].
  exists eet. split; [done|]. unfold ik_joint.
  mstep (ndarray_copy_spec _ _ _ Ha).
  set (s1 := set_heap (heap s ++ [v]) s).
  assert (H1 : heap s1 !! length (heap s) = Some v).
  { simpl. rewrite lookup_app_r by lia. by rewrite Nat.sub_diag. }
  mstep (getitem_spec _ _ _ _ _ H1 Hi).
  mstep (setitem_spec _ _ _ _ _ H1 Hia).
  set (s2 := set_heap _ s1).
  assert (Hh2 : heap s2 = heap s ++ [<[i := fadd vi lit_0_01]> v]).
  { simpl. by rewrite insert_app_r_alt, Nat.sub_diag by lia. }
  assert (H2 : heap s2 !! length (heap s) = Some (<[i := fadd vi lit_0_01]> v)).
  { rewrite Hh2, lookup_app_r by lia. by rewrite Nat.sub_diag. }
  mstep (end_effector_spec _ _ _ _ H2 Heet).
  assert (H2a : heap s2 !! a = Some v).
  { rewrite Hh2. by rewrite lookup_app_l by lia. }
  mstep (getitem_spec _ _ _ _ _ H2a Hi).
  rewrite (setitem_spec _ _ _ _ _ H2a Hia).
  rewrite Hh2, insert_app_l by lia. reflexivity.
Qed.

(** ** The inner loop *)

Lemma perturbed_copy_insert_ge v vcur i j t vj :
  j ≤ i → perturbed_copy v (<[i := t]> vcur) j vj = perturbed_copy v vcur j vj.
Proof. intros Hj. unfold perturbed_copy. by rewrite take_insert_ge. Qed.

Lemma sweep_inv_start T alpha nl ll err h0 a v :
  h0 !! a = Some v → sweep_inv T alpha nl ll err h0 a v 0 h0.
Proof.
  intros Ha. exists v, []. rewrite list_insert_id, app_nil_r by done.
  split_and!; try done; [constructor|..]; intros j Hj; lia.
Qed.

Lemma sweep_inv_step T alpha err s0 a v i h :
  heap s0 !! a = Some v →
  num_links s0 ≤ length (link_lengths s0) →
  i < length v →
  sweep_inv T alpha (num_links s0) (link_lengths s0) err (heap s0) a v i h →
  ∃ h',
    ik_joint T a alpha err i (set_heap h s0) = Ok (tt, set_heap h' s0) ∧
    sweep_inv T alpha (num_links s0) (link_lengths s0) err (heap s0) a v (S i) h'.
Proof.
  intros Ha Hll Hi (vcur & temps & -> & Hlen & Htemps & Hdrop & Hrtc & Hcopies & Hdesc).
  assert (Hah : a < length (heap s0)) by by eapply lookup_lt_Some.
  destruct (lookup_lt_is_Some_2 v i Hi) as [vi Hvi].
  assert (Hcur : vcur !! i = Some vi).
  { rewrite <- (Nat.add_0_r i), <- lookup_drop, Hdrop, lookup_drop.
    by rewrite Nat.add_0_r. }
  set (s := set_heap (<[a := vcur]> (heap s0) ++ temps) s0).
  assert (Hs : heap s !! a = Some vcur).
  { simpl. rewrite lookup_app_l by (rewrite length_insert; lia).
    by apply list_lookup_insert_eq. }
  destruct (ik_joint_spec T a alpha err i s vcur vi Hs Hcur Hll) as (eet & Heet & ->).
  simpl in Heet. eexists. split.
  { unfold s. rewrite set_heap_set_heap. simpl.
    rewrite insert_app_l by (rewrite length_insert; lia).
    by rewrite list_insert_insert_eq, <- (assoc_L (++)). }
  set (g := gradient_of T eet err).
  assert (Hcopy : perturbed_copy v (<[i := fsub vi (fmul alpha g)]> vcur) i vi
                  = <[i := fadd vi lit_0_01]> vcur).
  { rewrite perturbed_copy_insert_ge by done. unfold perturbed_copy.
    by rewrite <- Hdrop, take_drop. }
  exists (<[i := fsub vi (fmul alpha g)]> vcur), (temps ++ [<[i := fadd vi lit_0_01]> vcur]).
  split; [done|]. split; [by rewrite length_insert|].
  split; [rewrite length_app; simpl; lia|].
  split.
  { rewrite drop_insert_lt by lia.
    by rewrite <- (Nat.add_1_r i), <- !drop_drop, Hdrop. }
  split.
  { pose proof (descent_snoc T alpha (num_links s0) (link_lengths s0) err
                  v temps vcur vi eet Hrtc) as Hstep.
    rewrite Htemps in Hstep. by apply Hstep. }
  split.
  - intros j Hj. destruct (decide (j = i)) as [->|Hne].
    + exists vi. split; [done|]. rewrite Hcopy.
      rewrite lookup_app_r by lia. by rewrite Htemps, Nat.sub_diag.
    + destruct (Hcopies j) as (vj & Hvj & Htj); [lia|]. exists vj.
      split; [done|]. rewrite perturbed_copy_insert_ge by lia.
      by rewrite lookup_app_l by lia.
  - intros j Hj. destruct (decide (j = i)) as [->|Hne].
    + exists vi, eet. rewrite Hcopy. repeat split; auto.
      apply list_lookup_insert_eq. lia.
    + destruct (Hdesc j) as (vj & ej & Hvj & Hej & Hcj); [lia|].
      exists vj, ej. rewrite perturbed_copy_insert_ge by lia.
      repeat split; auto. by rewrite list_lookup_insert_ne.
Qed.

Lemma sweep_spec T alpha err s0 a v n : ∀ i h,
  heap s0 !! a = Some v →
  num_links s0 ≤ length (link_lengths s0) →
  i + n ≤ length v →
  sweep_inv T alpha (num_links s0) (link_lengths s0) err (heap s0) a v i h →
  ∃ h',
    for_range i n (λ i _, ik_joint T a alpha err i) tt (set_heap h s0)
      = Ok (tt, set_heap h' s0) ∧
    sweep_inv T alpha (num_links s0) (link_lengths s0) err (heap s0) a v (i + n) h'.
Proof.
  induction n as [|n IH]; intros i h Ha Hll Hn Hinv; simpl.
  - exists h. by rewrite Nat.add_0_r.
  - destruct (sweep_inv_step T alpha err s0 a v i h) as (h1 & E1 & Hinv1);
      [done|done|lia|done|].
    mstep E1.
    destruct (IH (S i) h1) as (h' & E' & Hinv'); [done|done|lia|done|].
    exists h'. by rewrite <- Nat.add_succ_comm.
Qed.

(** ** One iteration of the outer loop *)

Lemma ik_iteration_break T a alpha s v ee :
  heap s !! a = Some v →
  ee_of (num_links s) (link_lengths s) v = Ok ee →
  flt (np_linalg_norm (vsub T ee)) lit_1e_1 = true →
  ik_iteration T a alpha s = Ok (true, set_reached_target true s).
Proof.
  intros Ha Hee Hlt. unfold ik_iteration.
  mstep (end_effector_spec _ _ _ _ Ha Hee).
  by rewrite Hlt.
Qed.

Lemma ik_iteration_descend T a alpha s v ee :
  heap s !! a = Some v →
  ee_of (num_links s) (link_lengths s) v = Ok ee →
  flt (np_linalg_norm (vsub T ee)) lit_1e_1 = false →
  num_links s ≤ length v →
  num_links s ≤ length (link_lengths s) →
  ∃ h',
    ik_iteration T a alpha s
      = Ok (false, set_heap h' (set_reached_target false s)) ∧
    sweep_inv T alpha (num_links s) (link_lengths s) (vsub T ee)
              (heap s) a v (num_links s) h'.
Proof.
  intros Ha Hee Hlt Hv Hll. unfold ik_iteration.
  mstep (end_effector_spec _ _ _ _ Ha Hee).
  rewrite Hlt.
  set (s0 := set_reached_target false s).
  destruct (sweep_spec T alpha (vsub T ee) s0 a v (num_links s) 0 (heap s))
    as (h' & E & Hinv); [done|done|done|by apply sweep_inv_start|].
  exists h'. split; [|done].
  replace (set_heap (heap s) s0) with s0 in E by by destruct s.
  mstep (modify_spec (set_reached_target false) s).
  mstep (gets_spec num_links _).
  by mstep E.
Qed.

Lemma sweep_inv_summary T alpha nl ll err h0 a v i h :
  sweep_inv T alpha nl ll err h0 a v i h →
  ∃ v' temps,
    h = <[a := v']> h0 ++ temps ∧ length v' = length v ∧ length temps = i ∧
    descent_run T alpha nl ll err v temps v'.
Proof. intros (v' & temps & ? & ? & ? & ? & ? & ?). by exists v', temps. Qed.

(** ** The outer loop *)

Lemma ik_loop_converged T a alpha k s v :
  heap s !! a = Some v →
  within_tolerance T (num_links s) (link_lengths s) v →
  ik_loop T a alpha (S k) s = Ok (tt, set_reached_target true s).
Proof.
  intros Ha (ee & Hee & Hlt). simpl.
  by mstep (ik_iteration_break T a alpha s v ee Ha Hee Hlt).
Qed.

Lemma ik_loop_spec T a alpha k : ∀ s v,
  heap s !! a = Some v →
  num_links s ≤ length v →
  num_links s ≤ length (link_lengths s) →
  ∃ b v' temps,
    ik_loop T a alpha k s
      = Ok (tt, set_heap (<[a := v']> (heap s) ++ temps)
                         (set_reached_target b s)) ∧
    length v' = length v ∧
    solver_run T alpha (num_links s) (link_lengths s) v temps v' ∧
    loop_outcome T (num_links s) (link_lengths s) k (reached_target s) v b v' temps.
Proof.
  induction k as [|k IH]; intros s v Ha Hv Hll.
  - exists (reached_target s), v, []. simpl.
    rewrite list_insert_id, app_nil_r by done.
    split_and!; try done; [by destruct s|constructor].
  - destruct (ee_of_total (num_links s) (link_lengths s) v Hll) as [ee Hee].
    destruct (flt (np_linalg_norm (vsub T ee)) lit_1e_1) eqn:Hlt.
    + exists true, v, [].
      rewrite (ik_loop_converged T a alpha k s v Ha) by by exists ee.
      rewrite list_insert_id, app_nil_r by done.
      split_and!; try done; [constructor|].
      intros _. by exists ee.
    + destruct (ik_iteration_descend T a alpha s v ee Ha Hee Hlt Hv Hll)
        as (h1 & E1 & Hinv).
      apply sweep_inv_summary in Hinv as (v1 & temps1 & -> & Hlen1 & Ht1 & Hrtc1).
      assert (Hah : a < length (heap s)) by by eapply lookup_lt_Some.
      set (s1 := set_heap _ _) in E1.
      assert (Ha1 : heap s1 !! a = Some v1).
      { simpl. rewrite lookup_app_l by (rewrite length_insert; lia).
        by apply list_lookup_insert_eq. }
      destruct (IH s1 v1 Ha1) as (b & v' & temps2 & E2 & Hlen2 & Hrtc2 & Hout);
        [simpl; lia|done|].
      exists b, v', (temps1 ++ temps2).
      cbn [ik_loop]. mstep E1. rewrite E2.
      split_and!.
      * simpl. rewrite insert_app_l by (rewrite length_insert; lia).
        by rewrite list_insert_insert_eq, <- (assoc_L (++)).
      * congruence.
      * by eapply solver_sweep.
      * destruct k as [|k']; [|exact Hout].
        destruct Hout as (-> & _ & _). simpl. done.
Qed.

(** ** The solver *)

Lemma optimize_link_lengths_spec T a s :
  optimize_link_lengths T a s = Ok (adapted_lengths T (num_links s), s).
Proof. reflexivity. Qed.

Lemma optimize_link_lengths_values T a s :
  ∃ ll,
    optimize_link_lengths T a s = Ok (ll, s) ∧
    length ll = num_links s ∧
    ∀ k, k < num_links s →
      ll !! k = Some (fdiv (np_linalg_norm T) (of_nat (num_links s))).
Proof.
  exists (adapted_lengths T (num_links s)).
  split; [apply optimize_link_lengths_spec|]. unfold adapted_lengths.
  split; [apply length_replicate|].
  intros k Hk. by apply lookup_replicate_2.
Qed.


Lemma inverse_kinematics_None a alpha k s :
  inverse_kinematics None a alpha k s = Ok (a, s).
Proof. reflexivity. Qed.

Lemma inverse_kinematics_spec T a alpha k s v :
  heap s !! a = Some v →
  num_links s ≤ length v →
  ∃ b v' temps,
    inverse_kinematics (Some T) a alpha k s
      = Ok (a, set_heap (<[a := v']> (heap s) ++ temps)
                 (set_reached_target b
                    (set_link_lengths (adapted_lengths T (num_links s)) s))) ∧
    length v' = length v ∧
    solver_run T alpha (num_links s) (adapted_lengths T (num_links s)) v temps v' ∧
    loop_outcome T (num_links s) (adapted_lengths T (num_links s)) k
                 (reached_target s) v b v' temps.
Proof.
  intros Ha Hv.
  set (s1 := set_link_lengths (adapted_lengths T (num_links s)) s).
  destruct (ik_loop_spec T a alpha k s1 v) as (b & v' & temps & E & Hlen & Hrtc & Hout);
    [done|done|by simpl; unfold adapted_lengths; rewrite length_replicate|].
  exists b, v', temps. split_and!; try done.
  unfold inverse_kinematics.
  mstep (optimize_link_lengths_spec T a s).
  mstep (modify_spec _ s).
  by mstep E.
Qed.

Lemma inverse_kinematics_converged T a alpha k s v :
  reached_target s = true →
  heap s !! a = Some v →
  within_tolerance T (num_links s) (adapted_lengths T (num_links s)) v →
  inverse_kinematics (Some T) a alpha k s
    = Ok (a, set_link_lengths (adapted_lengths T (num_links s)) s).
Proof.
  intros Hr Ha Hin. unfold inverse_kinematics.
  mstep (optimize_link_lengths_spec T a s).
  mstep (modify_spec _ s).
  destruct k as [|k]; [done|].
  mstep (ik_loop_converged T a alpha k (set_link_lengths (adapted_lengths T (num_links s)) s) v Ha Hin).
  destruct s; simpl in *. by subst.
Qed.

(** X15.  A call that runs at least one iteration and returns with the flag
    true can be repeated, with any step size and number of iterations,
    without any change of the state. *)
Lemma inverse_kinematics_twice T a alpha k alpha' k' s v s1 :
  heap s !! a = Some v →
  num_links s ≤ length v →
  inverse_kinematics (Some T) a alpha (S k) s = Ok (a, s1) →
  reached_target s1 = true →
  inverse_kinematics (Some T) a alpha' k' s1 = Ok (a, s1).
Proof.
  intros Ha Hv E Hr.
  destruct (inverse_kinematics_spec T a alpha (S k) s v Ha Hv)
    as (b & v' & temps & E' & _ & _ & Hout).
  rewrite E in E'. injection E' as ->. simpl in Hr, Hout. subst b.
  assert (Hah : a < length (heap s)) by by eapply lookup_lt_Some.
  erewrite inverse_kinematics_converged; [reflexivity|done|..].
  - simpl. rewrite lookup_app_l by (rewrite length_insert; lia).
    by apply list_lookup_insert_eq.
  - by apply Hout.
Qed.

(** ** The callers *)

Lemma update_seeking frame s T v :
  reached_target s = false →
  target s = Some T →
  heap s !! angles s = Some v →
  num_links s ≤ length v →
  ∃ b v' temps xy,
    update frame s
      = Ok (xy, set_movement_count (movement_count s + 1)
                  (set_heap (<[angles s := v']> (heap s) ++ temps)
                     (set_reached_target b
                        (set_link_lengths (adapted_lengths T (num_links s)) s)))) ∧
    length v' = length v ∧
    (b = true →
     within_tolerance T (num_links s) (adapted_lengths T (num_links s)) v').
Proof.
  intros Hr HT Ha Hv.
  destruct (inverse_kinematics_spec T (angles s) lit_0_1 100 s v Ha Hv)
    as (b & v' & temps & E & Hlen & _ & Hout).
  set (s1 := set_heap _ _) in E.
  set (s2 := set_movement_count (movement_count s + 1) s1).
  assert (Hah : angles s < length (heap s)) by by eapply lookup_lt_Some.
  assert (Ha2 : heap s2 !! angles s2 = Some v').
  { simpl. rewrite lookup_app_l by (rewrite length_insert; lia).
    by apply list_lookup_insert_eq. }
  destruct (fk_spec (num_links s2) (link_lengths s2) v') as (x & y & Efk & _).
  { simpl. unfold adapted_lengths. by rewrite length_replicate. }
  exists b, v', temps, (x, y). split; [|done].
  unfold update.
  mstep (gets_spec reached_target s). rewrite Hr. simpl negb.
  cbv iota.
  match goal with
  | |- (?m ≫= _) s = _ => assert (Etick : m s = Ok (tt, s2))
  end.
  { mstep (gets_spec target s).
    mstep (gets_spec angles s).
    unfold inverse_kinematics_default. rewrite HT.
    mstep E.
    mstep (modify_spec _ s1).
    by mstep (gets_spec movement_count _). }
  mstep Etick.
  mstep (gets_spec angles _).
  by rewrite (forward_kinematics_spec _ _ _ Ha2), Efk.
Qed.

Lemma update_num_links_spec val s :
  ∃ b v' temps,
    update_num_links val s
      = Ok (tt, mkState
                  (<[length (heap s) := v']>
                     (heap s ++ [replicate val (np_radians (of_nat 45))]) ++ temps)
                  val
                  (adapted_lengths (of_nat 3, of_nat 1) val)
                  b 1 (length (heap s)) (Some (of_nat 3, of_nat 1))) ∧
    length v' = val ∧
    (b = true →
     within_tolerance (of_nat 3, of_nat 1) val
                      (adapted_lengths (of_nat 3, of_nat 1) val) v').
Proof.
  set (s0 := mkState (heap s ++ [replicate val (np_radians (of_nat 45))])
               val (replicate val (of_nat 2)) false 0 (length (heap s))
               (Some (of_nat 3, of_nat 1))).
  destruct (update_seeking 0 s0 (of_nat 3, of_nat 1)
              (replicate val (np_radians (of_nat 45))))
    as (b & v' & temps & xy & E & Hlen & Hin); [done|done|..].
  { simpl. rewrite lookup_app_r by lia. by rewrite Nat.sub_diag. }
  { simpl. by rewrite length_replicate. }
  exists b, v', temps. rewrite length_replicate in Hlen. split; [|done].
  unfold update_num_links.
  mstep (modify_spec _ _).
  mstep (modify_spec _ _).
  mstep (eq_refl : alloc _ _ = Ok (_, _)).
  do 4 mstep (modify_spec _ _).
  change (set_movement_count 0 _) with s0.
  by mstep E.
Qed.

Lemma update_reached frame s v :
  reached_target s = true →
  heap s !! angles s = Some v →
  num_links s ≤ length (link_lengths s) →
  ∃ xy, update frame s = Ok (xy, s).
Proof.
  intros Hr Ha Hll.
  destruct (fk_spec (num_links s) (link_lengths s) v Hll) as (x & y & Efk & _).
  exists (x, y). unfold update.
  mstep (gets_spec reached_target s). rewrite Hr. simpl negb.
  cbv iota.
  mstep (ret_spec tt s).
  mstep (gets_spec angles _).
  by rewrite (forward_kinematics_spec _ _ _ Ha), Efk.
Qed.

(** ** The handlers keep the state well formed and the flag truthful *)

Lemma handle_invariant (e : event F) s :
  well_formed s → flag_truthful s →
  ∃ s', handle e s = Ok (tt, s') ∧ well_formed s' ∧ flag_truthful s'.
Proof.
  intros (v & T & Ha & Hv & HT) Hflag. destruct e as [frame|val|xdata ydata]; simpl.
  - destruct (reached_target s) eqn:Hr.
    + destruct (Hflag Hr) as (v1 & T1 & Ha1 & _ & Hll & _).
      destruct (update_reached frame s v Hr Ha) as [xy E].
      { rewrite Hll. unfold adapted_lengths. by rewrite length_replicate. }
      exists s. mstep E. split_and!; try done.
      by exists v, T.
    + destruct (update_seeking frame s T v Hr HT Ha) as
        (b & v' & temps & xy & E & Hlen & Hin); [lia|].
      assert (Hah : angles s < length (heap s)) by by eapply lookup_lt_Some.
      eexists. mstep E. split; [reflexivity|].
      assert (Ha' : (<[angles s := v']> (heap s) ++ temps) !! angles s = Some v').
      { rewrite lookup_app_l by (rewrite length_insert; lia).
        by apply list_lookup_insert_eq. }
      split.
      * exists v', T. simpl. split_and!; [done|congruence|done].
      * intros Hb. exists v', T. simpl in *. split_and!; try done. by apply Hin.
  - destruct (update_num_links_spec val s) as (b & v' & temps & E & Hlen & Hin).
    eexists. split; [exact E|].
    assert (Ha' : (<[length (heap s) := v']>
                     (heap s ++ [replicate val (np_radians (of_nat 45))]) ++ temps)
                    !! length (heap s) = Some v').
    { rewrite lookup_app_l by (rewrite length_insert, length_app; simpl; lia).
      apply list_lookup_insert_eq. rewrite length_app. simpl. lia. }
    split.
    + by exists v', (of_nat 3, of_nat 1).
    + intros Hb. exists v', (of_nat 3, of_nat 1). simpl in *.
      split_and!; try done. by apply Hin.
  - destruct xdata as [x|], ydata as [y|];
      try (exists s; split_and!; [done|by exists v, T|done]).
    eexists. split; [reflexivity|]. split.
    + by exists v, (x, y).
    + intros Hb. simpl in Hb. done.
Qed.

Lemma reachable_invariant (s : State F) :
  reachable s → well_formed s ∧ flag_truthful s.
Proof.
  induction 1 as [|s e s' _ [Hwf Hflag] E].
  - split.
    + by exists (replicate 2 (np_radians (of_nat 45))), (of_nat 3, of_nat 1).
    + intros Hb. simpl in Hb. done.
  - destruct (handle_invariant e s Hwf Hflag) as (s1 & E1 & Hwf1 & Hflag1).
    rewrite E in E1. by injection E1 as <-.
Qed.

(** X14.  From a state the program can be in, no handler raises: not the
    tick, not the slider's handler for any value, not the click with or
    without coordinates. *)
Lemma handle_total (e : event F) (s : State F) :
  reachable s → ∃ s', handle e s = Ok (tt, s').
Proof.
  intros [Hwf Hflag]%reachable_invariant.
  destruct (handle_invariant e s Hwf Hflag) as (s' & E & _). eauto.
Qed.

(** X16.  In a state the program can be in with the flag true, a direct call
    of the solver for the current target and angles, with any step size and
    number of iterations, changes nothing. *)
Lemma reachable_reached_solver_noop (s : State F) (alpha : F) (max_iters : nat) :
  reachable s → reached_target s = true →
  inverse_kinematics (target s) (angles s) alpha max_iters s = Ok (angles s, s).
Proof.
  intros [_ Hflag]%reachable_invariant Hr.
  destruct (Hflag Hr) as (v & T & Ha & -> & Hll & Hin).
  rewrite (inverse_kinematics_converged T (angles s) alpha max_iters s v Hr Ha)
    by by rewrite <- Hll.
  rewrite <- Hll. by destruct s.
Qed.

(** ** What one non-converged iteration does to every joint *)



End Properties.

(** * The specification's properties, for every arithmetic *)

Section SpecProperties.
Context {F : Type} {np : Numpy F}.
Implicit Types (s : State F) (v ll x y : list F) (a : loc) (T : F * F).

(** C2.  Forward kinematics on [N] joints, with [N] link lengths, returns
    two coordinate lists of [N+1] entries each, that is [N+1] positions; the
    first position is [(0, 0)], and position [k+1] is position [k] plus link
    length [k] times [(cos, sin)] of [np.sum(angles[:k+1])], the sum of the
    angles [0..k].  No exception is raised and the state is not changed.
    The statement holds for every [N], in particular for 2, 3, 4 and 5. *)
Theorem forward_kinematics_positions a s v N :
  heap s !! a = Some v →
  length v = N →
  num_links s = N →
  length (link_lengths s) = N →
  ∃ x y,
    forward_kinematics a s = Ok ((x, y), s) ∧
    length x = S N ∧ length y = S N ∧
    x !! 0 = Some (of_nat 0) ∧ y !! 0 = Some (of_nat 0) ∧
    ∀ k, k < N →
      ∃ xk yk lk,
        x !! k = Some xk ∧ y !! k = Some yk ∧ link_lengths s !! k = Some lk ∧
        x !! S k = Some (fadd xk (fmul lk (np_cos (np_sum (take (S k) v))))) ∧
        y !! S k = Some (fadd yk (fmul lk (np_sin (np_sum (take (S k) v))))).
Proof.
  intros Ha _ Hn Hll.
  destruct (fk_spec N (link_lengths s) v) as (x & y & E & Hfk); [lia|].
  exists x, y. split; [|exact Hfk].
  by rewrite (forward_kinematics_spec _ _ _ Ha), Hn, E.
Qed.

(** C6.  With an absent target the solver returns the very array it was
    given and leaves the whole state as it was: no angle is written, the
    link lengths are not recomputed, the flag is not touched, and nothing is
    raised. *)
Theorem inverse_kinematics_absent_target a (alpha : F) (max_iters : nat) s :
  ∃ s',
    inverse_kinematics None a alpha max_iters s = Ok (a, s') ∧
    heap s' = heap s ∧
    link_lengths s' = link_lengths s ∧
    reached_target s' = reached_target s ∧
    s' = s.
Proof. exists s. by rewrite inverse_kinematics_None. Qed.

(** C10.  The solver returns the array it was given, and that array has as
    many entries after the call as before, for every target, step size and
    number of iterations; nothing is raised. *)
Theorem inverse_kinematics_length (target : option (F * F)) a (alpha : F)
    (max_iters : nat) s v :
  heap s !! a = Some v →
  length v = num_links s →
  ∃ s' v',
    inverse_kinematics target a alpha max_iters s = Ok (a, s') ∧
    heap s' !! a = Some v' ∧
    length v' = length v ∧
    num_links s' = num_links s.
Proof.
  intros Ha Hv. destruct target as [T|].
  - destruct (inverse_kinematics_spec T a alpha max_iters s v Ha) as
      (b & v' & temps & E & Hlen & _); [lia|].
    eexists _, v'. split; [exact E|]. simpl. split_and!; try done.
    assert (Hah : a < length (heap s)) by by eapply lookup_lt_Some.
    rewrite lookup_app_l by (rewrite length_insert; lia).
    by apply list_lookup_insert_eq.
  - exists s, v. by rewrite inverse_kinematics_None.
Qed.


(** C4.  When the flag is true and the current angles pass the convergence
    test for the target (under the link lengths the solver adapts to that
    target), a further call of the solver writes no array at all, so every
    joint angle is as before, and leaves the flag as it was; when the link
    lengths are already the adapted ones, as a previous call for the same
    target leaves them, the state after the call is the state before it. *)
Theorem inverse_kinematics_idempotent T a (alpha : F) (max_iters : nat) s v :
  reached_target s = true →
  heap s !! a = Some v →
  within_tolerance T (num_links s) (adapted_lengths T (num_links s)) v →
  ∃ s',
    inverse_kinematics (Some T) a alpha max_iters s = Ok (a, s') ∧
    heap s' = heap s ∧
    reached_target s' = reached_target s ∧
    (link_lengths s = adapted_lengths T (num_links s) → s' = s).
Proof.
  intros Hr Ha Hin.
  exists (set_link_lengths (adapted_lengths T (num_links s)) s).
  split_and!; try done.
  - by eapply inverse_kinematics_converged.
  - intros <-. by destruct s.
Qed.

(** C5.  If the convergence test succeeds at the start of an iteration, the
    loop ends there, whatever number [rest] of rounds remains: the flag is
    set to true and nothing else changes, so no angle is written.  And a call
    of the solver that runs at least one iteration, or starts with the flag
    false, returns; if it returns with the flag true, then the returned
    angles pass the convergence test: the end effector is at distance below
    [1e-1] from the target. *)
Theorem convergence_test_stops_solver T a (alpha : F) (max_iters : nat) s v :
  heap s !! a = Some v →
  length v = num_links s →
  (within_tolerance T (num_links s) (link_lengths s) v →
   ∀ rest, ik_loop T a alpha (S rest) s = Ok (tt, set_reached_target true s)) ∧
  ∃ s' v',
    inverse_kinematics (Some T) a alpha max_iters s = Ok (a, s') ∧
    heap s' !! a = Some v' ∧
    (max_iters ≠ 0 ∨ reached_target s = false →
     reached_target s' = true →
     within_tolerance T (num_links s') (link_lengths s') v').
Proof.
  intros Ha Hv. split.
  - intros Hin rest. by eapply ik_loop_converged.
  - destruct (inverse_kinematics_spec T a alpha max_iters s v Ha) as
      (b & v' & temps & E & Hlen & _ & Hout); [lia|].
    eexists _, v'. split; [exact E|]. simpl.
    assert (Hah : a < length (heap s)) by by eapply lookup_lt_Some.
    split.
    { rewrite lookup_app_l by (rewrite length_insert; lia).
      by apply list_lookup_insert_eq. }
    intros Hrun Hb. destruct max_iters as [|k]; simpl in Hout.
    + destruct Hout as (-> & _ & _). destruct Hrun; congruence.
    + by apply Hout.
Qed.

(** C7, as the code has it.  The joint-count handler called with 4 returns
    without raising, in a state with 4 joints, an angle array of exactly 4
    entries, 4 equal link lengths and the default target [(3, 1)]; the
    movement counter is 1: the handler sets it to 0 and then runs one tick,
    which calls the solver once and counts that call. *)
Theorem update_num_links_four s :
  ∃ s' v l,
    update_num_links 4 s = Ok (tt, s') ∧
    num_links s' = 4 ∧
    heap s' !! angles s' = Some v ∧ length v = 4 ∧
    link_lengths s' = [l; l; l; l] ∧
    target s' = Some (of_nat 3, of_nat 1) ∧
    movement_count s' = 1.
Proof.
  destruct (update_num_links_spec 4 s) as (b & v' & temps & E & Hlen & _).
  eexists _, v', _. split; [exact E|]. simpl. split_and!; try done.
  rewrite lookup_app_l by (rewrite length_insert, length_app; simpl; lia).
  apply list_lookup_insert_eq. rewrite length_app. simpl. lia.
Qed.

(** C9.  A call of the solver changes the heap in two ways only.  Every
    array that existed before the call, other than the angle array, is as it
    was, and the arrays the call creates, [temps], come after them.  The
    angle array goes from [v] to [v'] by the sweeps of [solver_run]: every
    sweep starts from angles that fail the convergence test, with error
    vector [target - ee] for their end effector [ee], and handles the joints
    in order; for joint [i] it puts the current angles, with entry [i]
    increased by [0.01], in a new array of [temps], and writes to the angle
    array nothing but entry [i], which becomes its current, unperturbed
    value minus [alpha] times the estimate
    [(norm(eet - target) - norm(target - ee)) / 0.01], where [eet] is the
    end effector of that new array.  With an absent target nothing is
    written and no array is created. *)
Theorem perturbation_confined_to_copies (target : option (F * F)) a (alpha : F)
    (max_iters : nat) s v :
  heap s !! a = Some v →
  length v = num_links s →
  ∃ s' v' temps,
    inverse_kinematics target a alpha max_iters s = Ok (a, s') ∧
    heap s' = <[a := v']> (heap s) ++ temps ∧
    match target with
    | Some T =>
        solver_run T alpha (num_links s) (adapted_lengths T (num_links s))
                   v temps v'
    | None => v' = v ∧ temps = []
    end.
Proof.
  intros Ha Hv. destruct target as [T|].
  - destruct (inverse_kinematics_spec T a alpha max_iters s v Ha) as
      (b & v' & temps & E & _ & Hrun & _); [lia|].
    by eexists _, v', temps.
  - exists s, v, []. rewrite inverse_kinematics_None.
    by rewrite list_insert_id, app_nil_r.
Qed.

End SpecProperties.

(** * Further properties of the functions and of the program *)

Section Coverage.
Context {F : Type} {np : Numpy F}.
Implicit Types (s : State F) (v w ll x y : list F) (a : loc) (T : F * F).

(** ** Forward kinematics: bounds and locality *)

Lemma py_last_nonempty {A} (l : list A) : l ≠ [] → ∃ r : A, py_last l = Ok r.
Proof.
  intros Hl. unfold py_last. destruct (last l) as [r|] eqn:E; [eauto|].
  by apply last_None in E.
Qed.

Lemma fk_loop_raises ll v n : ∀ i x y,
  x ≠ [] → y ≠ [] → i ≤ length ll → length ll < i + n →
  fk_loop ll v i n x y = Raise IndexError.
Proof.
  induction n as [|n IH]; intros i x y Hx Hy Hi Hn; [lia|]. simpl.
  destruct (py_last_nonempty x Hx) as [xl ->].
  destruct (py_last_nonempty y Hy) as [yl ->]. simpl.
  destruct (decide (i < length ll)) as [Hlt|Hge].
  - destruct (py_getitem_lt ll i Hlt) as (li & _ & ->). simpl.
    apply IH; [by destruct x|by destruct y|lia|lia].
  - unfold py_getitem. by rewrite (proj2 (lookup_ge_None ll i)) by lia.
Qed.

Lemma forward_kinematics_raises a s v :
  heap s !! a = Some v →
  length (link_lengths s) < num_links s →
  forward_kinematics a s = Raise IndexError.
Proof.
  intros Ha Hlt. rewrite (forward_kinematics_spec _ _ _ Ha).
  unfold fk. by rewrite fk_loop_raises by (done || lia).
Qed.

Lemma forward_kinematics_Ok a s v xy :
  heap s !! a = Some v →
  fk (num_links s) (link_lengths s) v = Ok xy →
  forward_kinematics a s = Ok (xy, s).
Proof. intros Ha E. by rewrite (forward_kinematics_spec _ _ _ Ha), E. Qed.

(** X1.  [forward_kinematics] raises [IndexError] when [link_lengths] has
    fewer entries than [num_links]; otherwise it returns two lists of
    [num_links + 1] coordinates and leaves the state alone, whatever the
    number of entries of the angle array: the slices [angles[:i+1]] never
    raise. *)
Theorem forward_kinematics_index_error a s v :
  heap s !! a = Some v →
  (length (link_lengths s) < num_links s →
   forward_kinematics a s = Raise IndexError) ∧
  (num_links s ≤ length (link_lengths s) →
   ∃ x y,
     forward_kinematics a s = Ok ((x, y), s) ∧
     length x = S (num_links s) ∧ length y = S (num_links s)).
Proof.
  intros Ha. split.
  - intros Hlt. by eapply forward_kinematics_raises.
  - intros Hle. rewrite (forward_kinematics_spec _ _ _ Ha).
    destruct (fk_spec _ _ v Hle) as (x & y & -> & Hx & Hy & _).
    by exists x, y.
Qed.

Lemma fk_prefix_local nl ll v w x y x' y' i :
  nl ≤ length ll →
  fk nl ll v = Ok (x, y) →
  fk nl ll w = Ok (x', y') →
  take i v = take i w →
  ∀ k, k ≤ i → x !! k = x' !! k ∧ y !! k = y' !! k.
Proof.
  intros Hll Ev Ew Htake.
  destruct (fk_spec nl ll v Hll) as (x1 & y1 & E1 & Hx & Hy & Hx0 & Hy0 & Hch).
  rewrite Ev in E1. injection E1 as <- <-.
  destruct (fk_spec nl ll w Hll) as (x2 & y2 & E2 & Hx' & Hy' & Hx0' & Hy0' & Hch').
  rewrite Ew in E2. injection E2 as <- <-.
  induction k as [|k IH]; intros Hk; [by rewrite Hx0, Hy0, Hx0', Hy0'|].
  destruct IH as [IHx IHy]; [lia|].
  destruct (decide (k < nl)) as [Hlt|Hge].
  - destruct (Hch k Hlt) as (xk & yk & lk & Hxk & Hyk & Hlk & -> & ->).
    destruct (Hch' k Hlt) as (xk' & yk' & lk' & Hxk' & Hyk' & Hlk' & -> & ->).
    assert (xk' = xk) as -> by congruence.
    assert (yk' = yk) as -> by congruence.
    assert (lk' = lk) as -> by congruence.
    assert (Hsum : take (S k) v = take (S k) w).
    { rewrite <- (Nat.min_l (S k) i) by lia.
      by rewrite <- !take_take, Htake. }
    by rewrite Hsum.
  - rewrite !(proj2 (lookup_ge_None _ _)) by lia. done.
Qed.

(** X2.  Position [k] of forward kinematics depends on the angles before
    index [k] only: for two angle arrays that agree on their first [i]
    entries, the positions [0..i] are the same.  So changing the angle of
    joint [i] moves no joint position up to and including position [i]. *)
Theorem forward_kinematics_prefix_local a (b : loc) s v w x y x' y' i :
  heap s !! a = Some v →
  heap s !! b = Some w →
  take i v = take i w →
  forward_kinematics a s = Ok ((x, y), s) →
  forward_kinematics b s = Ok ((x', y'), s) →
  ∀ k, k ≤ i → x !! k = x' !! k ∧ y !! k = y' !! k.
Proof.
  intros Ha Hb Htake Ev Ew.
  destruct (decide (num_links s ≤ length (link_lengths s))) as [Hll|Hll].
  - rewrite (forward_kinematics_spec _ _ _ Ha) in Ev.
    rewrite (forward_kinematics_spec _ _ _ Hb) in Ew.
    unfold lift in Ev, Ew.
    destruct (fk _ _ v) as [[x1 y1]|] eqn:E1; [|done].
    destruct (fk _ _ w) as [[x2 y2]|] eqn:E2; [|done].
    injection Ev as <- <-. injection Ew as <- <-.
    by eapply fk_prefix_local.
  - rewrite (forward_kinematics_raises a s v Ha) in Ev by lia. done.
Qed.

(** ** The solver on an angle array that is too short *)

Lemma bind_Raise {A B} (m : M F A) (f : A → M F B) s e :
  m s = Raise e → (m ≫= f) s = Raise e.
Proof. intros E. unfold mbind, M_bind. by rewrite E. Qed.

Lemma ik_joint_raises T a (alpha : F) err i s v :
  heap s !! a = Some v → length v ≤ i →
  ik_joint T a alpha err i s = Raise IndexError.
Proof.
  intros Ha Hi. unfold ik_joint.
  mstep (ndarray_copy_spec _ _ _ Ha).
  apply bind_Raise. unfold getitem.
  erewrite bind_Ok; [|apply deref_spec; simpl;
                       rewrite lookup_app_r by lia; by rewrite Nat.sub_diag].
  unfold py_getitem. by rewrite (proj2 (lookup_ge_None v i)) by lia.
Qed.

Lemma sweep_raises T (alpha : F) err s0 a v n : ∀ i h,
  heap s0 !! a = Some v →
  num_links s0 ≤ length (link_lengths s0) →
  i ≤ length v → length v < i + n →
  sweep_inv T alpha (num_links s0) (link_lengths s0) err (heap s0) a v i h →
  for_range i n (λ i _, ik_joint T a alpha err i) tt (set_heap h s0)
    = Raise IndexError.
Proof.
  induction n as [|n IH]; intros i h Ha Hll Hi Hn Hinv; [lia|]. simpl.
  destruct (decide (i < length v)) as [Hlt|Hge].
  - destruct (sweep_inv_step T alpha err s0 a v i h Ha Hll Hlt Hinv)
      as (h1 & E1 & Hinv1).
    mstep E1. apply IH; [done|done|lia|lia|done].
  - apply bind_Raise.
    destruct Hinv as (vcur & temps & -> & Hlen & _).
    assert (Hah : a < length (heap s0)) by by eapply lookup_lt_Some.
    apply (ik_joint_raises T a alpha err i _ vcur); [|lia].
    simpl. rewrite lookup_app_l by (rewrite length_insert; lia).
    by apply list_lookup_insert_eq.
Qed.

Lemma inverse_kinematics_within T a (alpha : F) k s v :
  heap s !! a = Some v →
  within_tolerance T (num_links s) (adapted_lengths T (num_links s)) v →
  inverse_kinematics (Some T) a alpha (S k) s
    = Ok (a, set_reached_target true
               (set_link_lengths (adapted_lengths T (num_links s)) s)).
Proof.
  intros Ha Hin. unfold inverse_kinematics.
  mstep (optimize_link_lengths_spec T a s).
  mstep (modify_spec _ s).
  by mstep (ik_loop_converged T a alpha k
              (set_link_lengths (adapted_lengths T (num_links s)) s) v Ha Hin).
Qed.

(** X3.  The solver called (for at least one iteration) with an angle array
    of fewer entries than [num_links]: if the angles pass the convergence
    test at once, the call returns as usual, having set the link lengths and
    the flag; if they do not, the call raises [IndexError], when the inner
    loop reaches the first joint the array has no entry for. *)
Theorem inverse_kinematics_short_angles T a (alpha : F) (k : nat) s v ee :
  heap s !! a = Some v →
  length v < num_links s →
  ee_of (num_links s) (adapted_lengths T (num_links s)) v = Ok ee →
  inverse_kinematics (Some T) a alpha (S k) s =
    if flt (np_linalg_norm (vsub T ee)) lit_1e_1
    then Ok (a, set_reached_target true
                  (set_link_lengths (adapted_lengths T (num_links s)) s))
    else Raise IndexError.
Proof.
  intros Ha Hv Hee.
  destruct (flt (np_linalg_norm (vsub T ee)) lit_1e_1) eqn:Hlt.
  - apply (inverse_kinematics_within T a alpha k s v Ha). by exists ee.
  - unfold inverse_kinematics.
    mstep (optimize_link_lengths_spec T a s).
    mstep (modify_spec _ s).
    set (s1 := set_link_lengths _ s).
    apply bind_Raise. cbn [ik_loop]. apply bind_Raise.
    unfold ik_iteration.
    mstep (end_effector_spec a s1 v ee Ha Hee).
    rewrite Hlt.
    mstep (modify_spec (set_reached_target false) s1).
    mstep (gets_spec num_links (set_reached_target false s1)).
    apply bind_Raise.
    set (s0 := set_reached_target false s1).
    replace s0 with (set_heap (heap s0) s0) by by destruct s.
    apply (sweep_raises T alpha (vsub T ee) s0 a v); [done| |lia|simpl; lia|].
    + simpl. unfold adapted_lengths. by rewrite length_replicate.
    + by apply sweep_inv_start.
Qed.

(** ** How many sweeps a call makes *)

Lemma ik_loop_rounds T a (alpha : F) k : ∀ s v,
  heap s !! a = Some v →
  num_links s ≤ length v →
  num_links s ≤ length (link_lengths s) →
  ∃ r b v' temps,
    ik_loop T a alpha k s
      = Ok (tt, set_heap (<[a := v']> (heap s) ++ temps)
                         (set_reached_target b s)) ∧
    length temps = r * num_links s ∧
    r ≤ k ∧
    match k with
    | 0 => b = reached_target s
    | S _ => if b then r < k else r = k
    end ∧
    drop (num_links s) v' = drop (num_links s) v.
Proof.
  induction k as [|k IH]; intros s v Ha Hv Hll.
  - exists 0, (reached_target s), v, []. simpl.
    rewrite list_insert_id, app_nil_r by done.
    split_and!; try done. by destruct s.
  - destruct (ee_of_total (num_links s) (link_lengths s) v Hll) as [ee Hee].
    destruct (flt (np_linalg_norm (vsub T ee)) lit_1e_1) eqn:Hlt.
    + exists 0, true, v, [].
      rewrite (ik_loop_converged T a alpha k s v Ha) by by exists ee.
      rewrite list_insert_id, app_nil_r by done.
      split_and!; try done; lia.
    + destruct (ik_iteration_descend T a alpha s v ee Ha Hee Hlt Hv Hll)
        as (h1 & E1 & Hinv).
      destruct Hinv as (v1 & temps1 & -> & Hlen1 & Ht1 & Hdrop1 & _).
      assert (Hah : a < length (heap s)) by by eapply lookup_lt_Some.
      set (s1 := set_heap _ _) in E1.
      assert (Ha1 : heap s1 !! a = Some v1).
      { simpl. rewrite lookup_app_l by (rewrite length_insert; lia).
        by apply list_lookup_insert_eq. }
      destruct (IH s1 v1 Ha1) as (r & b & v' & temps2 & E2 & Ht2 & Hr & Hb & Hdrop2);
        [simpl; lia|done|].
      exists (S r), b, v', (temps1 ++ temps2).
      cbn [ik_loop]. mstep E1. rewrite E2.
      split_and!.
      * simpl. rewrite insert_app_l by (rewrite length_insert; lia).
        by rewrite list_insert_insert_eq, <- (assoc_L (++)).
      * rewrite length_app, Ht1, Ht2. simpl. lia.
      * lia.
      * destruct k as [|k'].
        -- simpl in Hb. subst b. simpl. lia.
        -- destruct b; lia.
      * simpl in Hdrop2. by rewrite Hdrop2.
Qed.

(** X4.  A call of the solver with a present target makes a whole number
    [r] of sweeps over the joints, at most [max_iters] of them, and creates
    [num_links] arrays in each sweep and no other.  When [max_iters] is not
    0, the call returns with the flag false exactly when it has made all
    [max_iters] sweeps, and with the flag true after fewer; the joint count,
    the movement counter, the target and the global [angles] are as before,
    and the link lengths are those adapted to the target. *)
Theorem inverse_kinematics_rounds T a (alpha : F) (max_iters : nat) s v :
  heap s !! a = Some v →
  length v = num_links s →
  ∃ r s',
    inverse_kinematics (Some T) a alpha max_iters s = Ok (a, s') ∧
    length (heap s') = length (heap s) + r * num_links s ∧
    r ≤ max_iters ∧
    (max_iters ≠ 0 → if reached_target s' then r < max_iters else r = max_iters) ∧
    num_links s' = num_links s ∧
    movement_count s' = movement_count s ∧
    target s' = target s ∧
    angles s' = angles s ∧
    link_lengths s' = adapted_lengths T (num_links s).
Proof.
  intros Ha Hv.
  set (s1 := set_link_lengths (adapted_lengths T (num_links s)) s).
  destruct (ik_loop_rounds T a alpha max_iters s1 v)
    as (r & b & v' & temps & E & Ht & Hr & Hb & _);
    [done|simpl; lia|by simpl; unfold adapted_lengths; rewrite length_replicate|].
  eexists r, _. split.
  { unfold inverse_kinematics.
    mstep (optimize_link_lengths_spec T a s).
    mstep (modify_spec _ s).
    by mstep E. }
  simpl. split_and!; try done.
  - rewrite length_app, length_insert, Ht. done.
  - intros Hk. destruct max_iters; [done|exact Hb].
Qed.

(** ** Angle entries beyond the joint count *)

Lemma fk_loop_agree ll v w n : ∀ i x y,
  take (i + n) v = take (i + n) w →
  fk_loop ll v i n x y = fk_loop ll w i n x y.
Proof.
  induction n as [|n IH]; intros i x y Htake; [done|]. simpl.
  assert (Hs : take (S i) v = take (S i) w).
  { rewrite <- (Nat.min_l (S i) (i + S n)) by lia.
    by rewrite <- !take_take, Htake. }
  rewrite Hs.
  destruct (py_last x) as [xl|]; [|done]. simpl.
  destruct (py_getitem ll i) as [li|]; [|done]. simpl.
  destruct (py_last y) as [yl|]; [|done]. simpl.
  apply IH. by replace (S i + n) with (i + S n) by lia.
Qed.

Lemma ee_of_agree nl ll v w :
  take nl v = take nl w → ee_of nl ll v = ee_of nl ll w.
Proof.
  intros Htake. unfold ee_of, fk. by rewrite (fk_loop_agree ll v w nl 0).
Qed.

Lemma sweep_agree T (alpha : F) nl ll err v w v1 w1 :
  take nl v = take nl w →
  nl ≤ length v → nl ≤ length w →
  length v1 = length v → length w1 = length w →
  (∀ j, j < nl → joint_descent T alpha nl ll err v v1 j) →
  (∀ j, j < nl → joint_descent T alpha nl ll err w w1 j) →
  take nl v1 = take nl w1.
Proof.
  intros Htake Hv Hw Hv1 Hw1 Hdv Hdw.
  assert (Hall : ∀ j, j ≤ nl → take j v1 = take j w1); [|by apply Hall].
  induction j as [|j IH]; intros Hj; [done|].
  specialize (IH ltac:(lia)).
  destruct (Hdv j) as (vj & eet & Hvj & Heet & Hnew); [lia|].
  destruct (Hdw j) as (wj & eet' & Hwj & Heet' & Hnew'); [lia|].
  assert (wj = vj) as ->.
  { rewrite <- (lookup_take_lt v nl j) in Hvj by lia.
    rewrite <- (lookup_take_lt w nl j) in Hwj by lia. congruence. }
  assert (Hcopy : take nl (perturbed_copy v v1 j vj)
                  = take nl (perturbed_copy w w1 j vj)).
  { unfold perturbed_copy. rewrite !take_insert_lt by lia. f_equal.
    rewrite !take_app, !length_take_le by lia.
    rewrite !take_drop_commute. replace (j + (nl - j)) with nl by lia.
    by rewrite IH, Htake, (take_ge (take j w1)) by (rewrite length_take; lia). }
  rewrite (ee_of_agree nl ll _ _ Hcopy) in Heet.
  assert (eet' = eet) as -> by congruence.
  rewrite (take_S_r v1 j _ Hnew), (take_S_r w1 j _ Hnew'). by rewrite IH.
Qed.

Lemma ik_loop_agree T a (alpha : F) k : ∀ s1 s2 v w,
  num_links s2 = num_links s1 →
  link_lengths s2 = link_lengths s1 →
  reached_target s2 = reached_target s1 →
  heap s1 !! a = Some v → heap s2 !! a = Some w →
  num_links s1 ≤ length v → num_links s1 ≤ length w →
  num_links s1 ≤ length (link_lengths s1) →
  take (num_links s1) v = take (num_links s1) w →
  ∃ s1' s2' v' w',
    ik_loop T a alpha k s1 = Ok (tt, s1') ∧
    ik_loop T a alpha k s2 = Ok (tt, s2') ∧
    heap s1' !! a = Some v' ∧ heap s2' !! a = Some w' ∧
    reached_target s2' = reached_target s1' ∧
    take (num_links s1) v' = take (num_links s1) w' ∧
    length v' = length v ∧ length w' = length w ∧
    drop (num_links s1) v' = drop (num_links s1) v ∧
    drop (num_links s1) w' = drop (num_links s1) w.
Proof.
  induction k as [|k IH]; intros s1 s2 v w Hn Hl Hr Ha1 Ha2 Hv Hw Hll Htake.
  - by exists s1, s2, v, w.
  - destruct (ee_of_total (num_links s1) (link_lengths s1) v Hll) as [ee Hee].
    assert (Hee2 : ee_of (num_links s2) (link_lengths s2) w = Ok ee).
    { rewrite Hn, Hl, <- Hee. symmetry. by apply ee_of_agree. }
    destruct (flt (np_linalg_norm (vsub T ee)) lit_1e_1) eqn:Hlt.
    + exists (set_reached_target true s1), (set_reached_target true s2), v, w.
      rewrite (ik_loop_converged T a alpha k s1 v Ha1) by by exists ee.
      rewrite (ik_loop_converged T a alpha k s2 w Ha2) by by exists ee.
      done.
    + destruct (ik_iteration_descend T a alpha s1 v ee Ha1 Hee Hlt Hv Hll)
        as (h1 & E1 & v1 & temps1 & -> & Hlen1 & _ & Hdrop1 & _ & _ & Hd1).
      destruct (ik_iteration_descend T a alpha s2 w ee Ha2 Hee2 Hlt)
        as (h2 & E2 & w1 & temps2 & -> & Hlen2 & _ & Hdrop2 & _ & _ & Hd2);
        [lia|rewrite Hn, Hl; lia|].
      rewrite Hn, Hl in Hd2.
      assert (Hah1 : a < length (heap s1)) by by eapply lookup_lt_Some.
      assert (Hah2 : a < length (heap s2)) by by eapply lookup_lt_Some.
      set (t1 := set_heap _ _) in E1. set (t2 := set_heap _ _) in E2.
      destruct (IH t1 t2 v1 w1) as
        (s1' & s2' & v' & w' & E1' & E2' & Ha1' & Ha2' & Hr' & Htake'
         & Hlv & Hlw & Hdv & Hdw); try done.
      * simpl. rewrite lookup_app_l by (rewrite length_insert; lia).
        by apply list_lookup_insert_eq.
      * simpl. rewrite lookup_app_l by (rewrite length_insert; lia).
        by apply list_lookup_insert_eq.
      * simpl. lia.
      * simpl. lia.
      * simpl. by eapply sweep_agree.
      * exists s1', s2', v', w'. cbn [ik_loop]. mstep E1. mstep E2.
        simpl in *. split_and!; try done; congruence.
Qed.

(** X10.  The solver neither reads nor writes the entries of the angle
    array from index [num_links] on.  Take two calls with the same target,
    step size and iteration count, in states with the same joint count and
    flag, on angle arrays with at least [num_links] entries that agree on
    their first [num_links] entries (and may differ in length and in all
    later entries).  Both calls return, with the same flag and with angle
    arrays that agree on their first [num_links] entries; each array keeps
    its length and every entry from index [num_links] on. *)
Theorem inverse_kinematics_extra_angles (target : option (F * F)) a (alpha : F)
    (max_iters : nat) s1 s2 v w :
  num_links s2 = num_links s1 →
  reached_target s2 = reached_target s1 →
  heap s1 !! a = Some v →
  heap s2 !! a = Some w →
  num_links s1 ≤ length v →
  num_links s1 ≤ length w →
  take (num_links s1) v = take (num_links s1) w →
  ∃ s1' s2' v' w',
    inverse_kinematics target a alpha max_iters s1 = Ok (a, s1') ∧
    inverse_kinematics target a alpha max_iters s2 = Ok (a, s2') ∧
    heap s1' !! a = Some v' ∧ heap s2' !! a = Some w' ∧
    reached_target s2' = reached_target s1' ∧
    take (num_links s1) v' = take (num_links s1) w' ∧
    length v' = length v ∧ length w' = length w ∧
    drop (num_links s1) v' = drop (num_links s1) v ∧
    drop (num_links s1) w' = drop (num_links s1) w.
Proof.
  intros Hn Hr Ha1 Ha2 Hv Hw Htake.
  destruct target as [T|]; [|by exists s1, s2, v, w].
  set (t1 := set_link_lengths (adapted_lengths T (num_links s1)) s1).
  set (t2 := set_link_lengths (adapted_lengths T (num_links s2)) s2).
  destruct (ik_loop_agree T a alpha max_iters t1 t2 v w) as
    (s1' & s2' & v' & w' & E1 & E2 & Hrest); try done.
  { simpl. by rewrite Hn. }
  { simpl. unfold adapted_lengths. by rewrite length_replicate. }
  exists s1', s2', v', w'. split; [|split; [|exact Hrest]].
  - unfold inverse_kinematics.
    mstep (optimize_link_lengths_spec T a s1).
    mstep (modify_spec _ s1).
    by mstep E1.
  - unfold inverse_kinematics.
    mstep (optimize_link_lengths_spec T a s2).
    mstep (modify_spec _ s2).
    by mstep E2.
Qed.

(** ** The tick *)

Lemma forward_kinematics_state a s xy s' :
  forward_kinematics a s = Ok (xy, s') → s' = s.
Proof.
  unfold forward_kinematics, mbind, M_bind, deref, gets, lift.
  destruct (heap s !! a); [|done]. destruct (fk _ _ _); [|done].
  by intros [= _ <-].
Qed.

Lemma update_returns_fk frame s xy s' :
  update frame s = Ok (xy, s') →
  forward_kinematics (angles s') s' = Ok (xy, s').
Proof.
  unfold update. unfold mbind at 1, M_bind at 1. rewrite gets_spec.
  unfold mbind at 1, M_bind at 1.
  match goal with |- context [ (if ?c then ?m1 else ?m2) s ] =>
    destruct ((if c then m1 else m2) s) as [[u s2]|e]; [|done] end.
  unfold mbind at 1, M_bind at 1. rewrite gets_spec. intros E.
  pose proof (forward_kinematics_state _ _ _ _ E) as ->. exact E.
Qed.

Lemma update_within frame s T v :
  reached_target s = false →
  target s = Some T →
  heap s !! angles s = Some v →
  within_tolerance T (num_links s) (adapted_lengths T (num_links s)) v →
  ∃ xy,
    update frame s
      = Ok (xy, set_movement_count (movement_count s + 1)
                  (set_reached_target true
                     (set_link_lengths (adapted_lengths T (num_links s)) s))).
Proof.
  intros Hr HT Ha Hin.
  pose proof (inverse_kinematics_within T (angles s) lit_0_1 99 s v Ha Hin) as E.
  set (s1 := set_reached_target true _) in E.
  set (s2 := set_movement_count (movement_count s + 1) s1).
  destruct (fk_spec (num_links s2) (link_lengths s2) v) as (x & y & Efk & _).
  { simpl. unfold adapted_lengths. by rewrite length_replicate. }
  exists (x, y). unfold update.
  mstep (gets_spec reached_target s). rewrite Hr. simpl negb. cbv iota.
  match goal with
  | |- (?m ≫= _) s = _ => assert (Etick : m s = Ok (tt, s2))
  end.
  { mstep (gets_spec target s). mstep (gets_spec angles s).
    unfold inverse_kinematics_default. rewrite HT.
    mstep E. mstep (modify_spec _ s1).
    by mstep (gets_spec movement_count (set_angles (angles s) s1)). }
  mstep Etick. mstep (gets_spec angles s2).
  by rewrite (forward_kinematics_spec _ _ v), Efk.
Qed.

(** X5.  One tick, from a state that is well formed and whose flag is
    truthful.  It never raises and returns the [num_links + 1] positions of
    forward kinematics in the state it leaves.  With the flag true it calls
    no solver and leaves the state as it is.  With the flag false it calls
    the solver once and adds exactly 1 to the movement counter.  The joint
    count, the target and the global [angles] are never changed, and the
    state it leaves is again well formed with a truthful flag. *)
Theorem update_tick (frame : nat) s :
  well_formed s → flag_truthful s →
  ∃ x y s',
    update frame s = Ok ((x, y), s') ∧
    forward_kinematics (angles s') s' = Ok ((x, y), s') ∧
    length x = S (num_links s) ∧ length y = S (num_links s) ∧
    movement_count s' = movement_count s + (if reached_target s then 0 else 1) ∧
    (reached_target s = true → s' = s) ∧
    num_links s' = num_links s ∧ target s' = target s ∧ angles s' = angles s ∧
    well_formed s' ∧ flag_truthful s'.
Proof.
  intros Hwf Hflag.
  destruct (handle_invariant (Tick frame) s Hwf Hflag) as (s1 & E1 & Hwf1 & Hflag1).
  destruct Hwf as (v & T & Ha & Hv & HT).
  assert (∃ x y s', update frame s = Ok ((x, y), s') ∧
            movement_count s' = movement_count s + (if reached_target s then 0 else 1) ∧
            (reached_target s = true → s' = s) ∧
            num_links s' = num_links s ∧ target s' = target s ∧
            angles s' = angles s ∧
            num_links s' ≤ length (link_lengths s'))
    as (x & y & s' & E & Hc & Hsame & Hn & Ht & Hang & Hll).
  { destruct (reached_target s) eqn:Hr.
    - destruct (Hflag Hr) as (v1 & T1 & _ & _ & Hll & _).
      assert (Hle : num_links s ≤ length (link_lengths s)).
      { rewrite Hll. unfold adapted_lengths. by rewrite length_replicate. }
      destruct (update_reached frame s v Hr Ha Hle) as [[x y] E].
      exists x, y, s. split_and!; try done; lia.
    - destruct (update_seeking frame s T v Hr HT Ha) as
        (b & v' & temps & [x y] & E & _); [lia|].
      eexists x, y, _. split; [exact E|]. simpl. split_and!; try done.
      unfold adapted_lengths. by rewrite length_replicate. }
  assert (s1 = s') as ->.
  { simpl in E1. unfold mbind, M_bind in E1. rewrite E in E1.
    by injection E1 as <-. }
  pose proof (update_returns_fk _ _ _ _ E) as Efk.
  destruct Hwf1 as (v' & T' & Ha' & Hv' & HT').
  rewrite (forward_kinematics_spec _ _ _ Ha') in Efk.
  destruct (fk_spec (num_links s') (link_lengths s') v' Hll)
    as (x1 & y1 & E' & Hx & Hy & _).
  rewrite E' in Efk. simpl in Efk. injection Efk as <- <-.
  exists x1, y1, s'. split_and!; try done.
  - by rewrite (forward_kinematics_spec _ _ _ Ha'), E'.
  - by rewrite <- Hn.
  - by rewrite <- Hn.
  - by exists v', T'.
Qed.

(** ** What holds in every state the program can be in *)

Lemma handle_Tick_inv frame s s' :
  handle (Tick frame) s = Ok (tt, s') → ∃ xy, update frame s = Ok (xy, s').
Proof.
  simpl. unfold mbind, M_bind.
  destruct (update frame s) as [[xy s1]|]; [|done].
  intros [= <-]. by exists xy.
Qed.

Lemma handle_links_uniform (e : event F) s s' :
  well_formed s → flag_truthful s → links_uniform s →
  handle e s = Ok (tt, s') → links_uniform s'.
Proof.
  intros (v & T & Ha & Hv & HT) Hflag Hu E.
  destruct e as [frame|val|xdata ydata].
  - apply handle_Tick_inv in E as [xy E].
    destruct (reached_target s) eqn:Hr.
    + destruct (Hflag Hr) as (v1 & T1 & _ & _ & Hll & _).
      destruct (update_reached frame s v Hr Ha) as [xy' E'].
      { rewrite Hll. unfold adapted_lengths. by rewrite length_replicate. }
      rewrite E in E'. by injection E' as _ ->.
    + destruct (update_seeking frame s T v Hr HT Ha) as
        (b & v' & temps & xy' & E' & _); [lia|].
      rewrite E in E'. injection E' as _ ->. by eexists.
  - destruct (update_num_links_spec val s) as (b & v' & temps & E' & _).
    simpl in E. rewrite E in E'. injection E' as ->. by eexists.
  - simpl in E. destruct xdata as [x|], ydata as [y|]; injection E as <-; done.
Qed.

Lemma reachable_links_uniform (s : State F) : reachable s → links_uniform s.
Proof.
  induction 1 as [|s e s' Hs IH E]; [by exists (of_nat 2)|].
  destruct (reachable_invariant s Hs) as [Hwf Hflag].
  by eapply handle_links_uniform.
Qed.

(** X6.  In every state the program can be in, a true flag tells the truth:
    there is a target, the link lengths are the ones adapted to it, and the
    end effector of the current angles is at distance below [1e-1] from
    it. *)
Theorem reachable_flag_true_within_tolerance (s : State F) :
  reachable s → reached_target s = true →
  ∃ v T,
    heap s !! angles s = Some v ∧ target s = Some T ∧
    link_lengths s = adapted_lengths T (num_links s) ∧
    within_tolerance T (num_links s) (link_lengths s) v.
Proof. intros [_ Hflag]%reachable_invariant Hr. by apply Hflag. Qed.

(** X7.  In every state the program can be in, the global [angles] names an
    array with exactly one angle per joint, there are exactly as many link
    lengths as joints and they are all equal, and there is a target. *)
Theorem reachable_shape (s : State F) :
  reachable s →
  ∃ v T l,
    heap s !! angles s = Some v ∧ length v = num_links s ∧
    target s = Some T ∧
    length (link_lengths s) = num_links s ∧
    link_lengths s = replicate (num_links s) l.
Proof.
  intros Hs. destruct (reachable_invariant s Hs) as [(v & T & Ha & Hv & HT) _].
  destruct (reachable_links_uniform s Hs) as [l Hl].
  exists v, T, l. split_and!; try done. by rewrite Hl, length_replicate.
Qed.

Lemma ticks_reached frames : ∀ s v,
  reached_target s = true →
  heap s !! angles s = Some v →
  num_links s ≤ length (link_lengths s) →
  handle_all (Tick <$> frames) s = Ok (tt, s).
Proof.
  induction frames as [|frame frames IH]; intros s v Hr Ha Hll; [done|].
  destruct (update_reached frame s v Hr Ha Hll) as [xy E].
  cbn [fmap list_fmap handle_all].
  erewrite bind_Ok; [by eapply IH|]. simpl. by mstep E.
Qed.

(** X8.  Once the flag is true, ticks alone change nothing: from a state
    the program can be in with the flag true, any number of ticks leaves
    the state, and so the arm and the movement counter, exactly as it is.
    Only a click or a slider change ends this. *)
Theorem reached_absorbs_ticks (s : State F) (frames : list nat) :
  reachable s → reached_target s = true →
  handle_all (Tick <$> frames) s = Ok (tt, s).
Proof.
  intros [_ Hflag]%reachable_invariant Hr.
  destruct (Hflag Hr) as (v & T & Ha & _ & Hll & _).
  apply (ticks_reached frames s v Hr Ha).
  rewrite Hll. unfold adapted_lengths. by rewrite length_replicate.
Qed.

(** ** The slider *)

(** X17.  The joint-count handler, for every value [val] (0 included): it
    never raises; it puts [val] angles in a new array and makes the global
    [angles] name it, so that no array that existed before is written; it
    leaves [val] joints, the default target [(3, 1)], the [val] link lengths
    adapted to that target, the movement counter at 1 and a truthful
    flag. *)
Theorem update_num_links_any (val : nat) s :
  ∃ s' v,
    update_num_links val s = Ok (tt, s') ∧
    num_links s' = val ∧
    angles s' = length (heap s) ∧
    heap s' !! angles s' = Some v ∧ length v = val ∧
    (∀ b : loc, b < length (heap s) → heap s' !! b = heap s !! b) ∧
    target s' = Some (of_nat 3, of_nat 1) ∧
    link_lengths s' = adapted_lengths (of_nat 3, of_nat 1) val ∧
    movement_count s' = 1 ∧
    flag_truthful s'.
Proof.
  destruct (update_num_links_spec val s) as (b & v' & temps & E & Hlen & Hin).
  eexists _, v'. split; [exact E|]. simpl.
  assert (Ha' : (<[length (heap s) := v']>
                   (heap s ++ [replicate val (np_radians (of_nat 45))]) ++ temps)
                  !! length (heap s) = Some v').
  { rewrite lookup_app_l by (rewrite length_insert, length_app; simpl; lia).
    apply list_lookup_insert_eq. rewrite length_app. simpl. lia. }
  split_and!; try done.
  - intros b' Hb'.
    rewrite lookup_app_l by (rewrite length_insert, length_app; simpl; lia).
    rewrite list_lookup_insert_ne by lia. by rewrite lookup_app_l.
  - intros Hb. exists v', (of_nat 3, of_nat 1). simpl in *.
    split_and!; try done. by apply Hin.
Qed.

(** ** The click *)

(** X9.  A click without both coordinates (outside the axes) changes
    nothing.  A click at [(x, y)] replaces the target, sets the flag to
    false and the counter to 0, and touches neither the arrays nor the link
    lengths nor the joint count.  The tick that follows calls the solver
    for the new target: after it the counter is 1, the link lengths are the
    ones adapted to [(x, y)], the joint count and the global [angles] are as
    before the click, and the flag is truthful. *)
Theorem click_then_tick (x y : F) (frame : nat) s :
  well_formed s →
  (∀ xdata ydata, xdata = None ∨ ydata = None →
     handle (ButtonPress xdata ydata) s = Ok (tt, s)) ∧
  ∃ s1 s2,
    handle (ButtonPress (Some x) (Some y)) s = Ok (tt, s1) ∧
    target s1 = Some (x, y) ∧ reached_target s1 = false ∧
    movement_count s1 = 0 ∧
    heap s1 = heap s ∧ link_lengths s1 = link_lengths s ∧
    num_links s1 = num_links s ∧ angles s1 = angles s ∧
    handle (Tick frame) s1 = Ok (tt, s2) ∧
    handle_all [ButtonPress (Some x) (Some y); Tick frame] s = Ok (tt, s2) ∧
    target s2 = Some (x, y) ∧ movement_count s2 = 1 ∧
    link_lengths s2 = adapted_lengths (x, y) (num_links s) ∧
    num_links s2 = num_links s ∧ angles s2 = angles s ∧
    flag_truthful s2.
Proof.
  intros (v & T & Ha & Hv & HT). split.
  { intros xdata ydata [-> | ->]; [done|]. by destruct xdata. }
  set (s1 := set_movement_count 0
               (set_reached_target false (set_target (Some (x, y)) s))).
  destruct (update_seeking frame s1 (x, y) v) as
    (b & v' & temps & xy & E & _ & Hin); [done|done|done|simpl; lia|].
  set (s2 := set_movement_count _ _) in E.
  assert (E2 : handle (Tick frame) s1 = Ok (tt, s2)).
  { simpl. by mstep E. }
  exists s1, s2. split_and!; try done.
  - cbn [handle_all]. 
    mstep (eq_refl : handle (ButtonPress (Some x) (Some y)) s = Ok (tt, s1)).
    by mstep E2.
  - intros Hb. simpl in Hb. subst b. exists v', (x, y). simpl.
    assert (Hah : angles s < length (heap s)) by by eapply lookup_lt_Some.
    split_and!; try done; [|by apply Hin].
    rewrite lookup_app_l by (rewrite length_insert; lia).
    by apply list_lookup_insert_eq.
Qed.

End Coverage.

(** * The properties that rest on the laws of arithmetic, and concrete
      runs, in exact real arithmetic *)

Section RealArithmetic.
Local Open Scope R_scope.
Implicit Types (s : State R) (v ll x y : list R) (a : loc) (T : R * R).

Lemma R_sum_replicate (n : nat) (c : R) :
  np_sum (replicate n c) = INR n * c.
Proof.
  induction n as [|n IH]; [simpl; lra|].
  rewrite S_INR. simpl in *. rewrite IH. lra.
Qed.

Lemma R_norm_origin : np_linalg_norm (0, 0) = 0.
Proof. simpl. by rewrite Rmult_0_l, Rplus_0_l, sqrt_0. Qed.

Lemma R_adapted_origin (n : nat) : adapted_lengths (0, 0) n = replicate n 0.
Proof. unfold adapted_lengths. rewrite R_norm_origin. simpl. by rewrite Rdiv_0_l. Qed.

Lemma R_fk_zero_links (N : nat) v x y :
  fk N (replicate N 0) v = Ok (x, y) →
  ∀ k, (k ≤ N)%nat → x !! k = Some 0 ∧ y !! k = Some 0.
Proof.
  intros E.
  destruct (fk_spec N (replicate N 0) v) as (x' & y' & E' & _ & _ & Hx0 & Hy0 & Hch).
  { by rewrite length_replicate. }
  rewrite E in E'. injection E' as <- <-.
  induction k as [|k IH]; intros Hk; [done|].
  destruct IH as [Hxk Hyk]; [lia|].
  destruct (Hch k) as (xk & yk & lk & Hxk' & Hyk' & Hlk & -> & ->); [lia|].
  apply lookup_replicate in Hlk as [-> _].
  assert (xk = 0) as -> by congruence. assert (yk = 0) as -> by congruence.
  simpl. split; f_equal; lra.
Qed.

(** C3.  In exact arithmetic: for every target [T] and joint count [N],
    link-length adaptation returns, without raising and without changing
    the state, a list of exactly [N] values, each of them the Euclidean norm
    of [T] divided by [N]; for [N] other than 0 their sum is the Euclidean
    norm of [T]. *)
Theorem optimize_link_lengths_equal_share T a s (N : nat) :
  num_links s = N →
  ∃ ll,
    optimize_link_lengths T a s = Ok (ll, s) ∧
    length ll = N ∧
    (∀ k, (k < N)%nat → ll !! k = Some (sqrt (T.1 * T.1 + T.2 * T.2) / INR N)) ∧
    (N ≠ 0%nat → np_sum ll = sqrt (T.1 * T.1 + T.2 * T.2)).
Proof.
  intros <-. destruct (optimize_link_lengths_values T a s) as (ll & E & Hlen & Hll).
  exists ll. split_and!; try done.
  intros HN. rewrite optimize_link_lengths_spec in E. injection E as <-.
  unfold adapted_lengths. rewrite R_sum_replicate. simpl. field.
  by apply not_0_INR.
Qed.

(** C8.  In exact arithmetic: for the target [(0, 0)] and every joint count
    [N] (so for 2, 3, 4 and 5) and every angle array, nothing is raised;
    link-length adaptation returns [N] link lengths that are all 0, and
    forward kinematics under these link lengths returns [N+1] positions that
    are all [(0, 0)]. *)
Theorem origin_target_degenerate (N : nat) a s v :
  heap s !! a = Some v →
  num_links s = N →
  ∃ ll x y,
    optimize_link_lengths (0, 0) a s = Ok (ll, s) ∧
    length ll = N ∧
    (∀ k, (k < N)%nat → ll !! k = Some 0) ∧
    forward_kinematics a (set_link_lengths ll s)
      = Ok ((x, y), set_link_lengths ll s) ∧
    length x = S N ∧ length y = S N ∧
    ∀ k, (k ≤ N)%nat → x !! k = Some 0 ∧ y !! k = Some 0.
Proof.
  intros Ha <-. set (N := num_links s).
  destruct (fk_spec N (replicate N 0) v) as (x & y & E & Hx & Hy & _).
  { by rewrite length_replicate. }
  exists (replicate N 0), x, y. split_and!; try done.
  - by rewrite optimize_link_lengths_spec, R_adapted_origin.
  - apply length_replicate.
  - intros k Hk. by apply lookup_replicate_2.
  - rewrite (forward_kinematics_spec _ _ v) by done. simpl. fold N. by rewrite E.
  - by apply (R_fk_zero_links N v).
Qed.

(** ** Concrete runs of the two-joint arm *)

Lemma R_lt_true (r1 r2 : R) : r1 < r2 → flt r1 r2 = true.
Proof. intros Hlt. simpl. unfold R_lt. by destruct (Rlt_dec r1 r2). Qed.

Lemma R_lt_false (r1 r2 : R) : r2 <= r1 → flt r1 r2 = false.
Proof. intros Hle. simpl. unfold R_lt. destruct (Rlt_dec r1 r2); [lra|done]. Qed.

Lemma arm2_adapted_x : adapted_lengths (2, 0) 2 = [1; 1].
Proof.
  unfold adapted_lengths. simpl.
  replace (2 * 2 + 0 * 0) with (2 * 2) by lra.
  rewrite sqrt_square by lra. repeat f_equal; lra.
Qed.


(** both angles 0: the arm lies along the x axis and ends at [(2, 0)] *)
Lemma arm2_ee : ee_of 2 [1; 1] [0; 0] = Ok (2, 0).
Proof.
  unfold ee_of, fk. simpl.
  rewrite !Rplus_0_r, cos_0, sin_0. repeat f_equal; lra.
Qed.

Lemma arm2_reached : within_tolerance (2, 0) 2 [1; 1] [0; 0].
Proof.
  exists (2, 0). split; [apply arm2_ee|]. apply R_lt_true. simpl.
  replace ((2 - 2) * (2 - 2) + (0 - 0) * (0 - 0)) with 0 by lra.
  rewrite sqrt_0. lra.
Qed.




(** C7 as stated fails.  From the notebook's starting state, with 2 joints,
    the joint-count handler called with 4 returns with the movement counter
    at 1, not 0. *)
Lemma update_num_links_counter_not_zero :
  ∃ s',
    update_num_links 4 notebook_start = Ok (tt, s') ∧
    num_links notebook_start = 2%nat ∧
    movement_count s' = 1%nat ∧
    movement_count s' ≠ 0%nat.
Proof.
  destruct (update_num_links_spec 4 notebook_start) as (b & v' & temps & E & _).
  eexists. split; [exact E|]. by simpl.
Qed.

(** ** Instances of the theorems *)


Lemma forward_kinematics_positions_witness :
  ∃ x y,
    forward_kinematics 0%nat (arm2 (2, 0) false) = Ok ((x, y), arm2 (2, 0) false) ∧
    length x = 3%nat ∧ length y = 3%nat.
Proof.
  destruct (forward_kinematics_positions 0%nat (arm2 (2, 0) false) [0; 0] 2
              eq_refl eq_refl eq_refl eq_refl)
    as (x & y & E & Hx & Hy & _).
  exists x, y. auto.
Defined.

Lemma arm2_reached_adapted :
  within_tolerance (2, 0) 2 (adapted_lengths (2, 0) 2) [0; 0].
Proof. rewrite arm2_adapted_x. apply arm2_reached. Qed.

Lemma inverse_kinematics_idempotent_witness :
  ∃ s',
    inverse_kinematics (Some (2, 0)) 0%nat (1 / 10) 100 (arm2 (2, 0) true)
      = Ok (0%nat, s') ∧
    heap s' = [[0; 0]] ∧ reached_target s' = true.
Proof.
  destruct (inverse_kinematics_idempotent (2, 0) 0%nat (1 / 10) 100
              (arm2 (2, 0) true) [0; 0] eq_refl eq_refl arm2_reached_adapted)
    as (s' & E & Hh & Hr & _).
  exists s'. auto.
Defined.

Lemma convergence_test_stops_solver_witness :
  ik_loop (2, 0) 0%nat (1 / 10) 100 (arm2 (2, 0) false)
    = Ok (tt, set_reached_target true (arm2 (2, 0) false)) ∧
  ∃ s' v',
    inverse_kinematics (Some (2, 0)) 0%nat (1 / 10) 100 (arm2 (2, 0) false)
      = Ok (0%nat, s') ∧
    heap s' !! 0%nat = Some v' ∧
    (reached_target s' = true →
     within_tolerance (2, 0) (num_links s') (link_lengths s') v').
Proof.
  destruct (convergence_test_stops_solver (2, 0) 0%nat (1 / 10) 100
              (arm2 (2, 0) false) [0; 0] eq_refl eq_refl)
    as (Hstop & s' & v' & E & Ha & Hin).
  split; [exact (Hstop arm2_reached 99%nat)|].
  exists s', v'. split_and!; try done.
  apply Hin. by left.
Defined.

Lemma perturbation_confined_to_copies_witness :
  ∃ s' v' temps,
    inverse_kinematics (Some (0, 2)) 0%nat (1 / 10) 100 (arm2 (0, 2) false)
      = Ok (0%nat, s') ∧
    heap s' = v' :: temps.
Proof.
  destruct (perturbation_confined_to_copies (Some (0, 2)) 0%nat (1 / 10) 100
              (arm2 (0, 2) false) [0; 0] eq_refl eq_refl)
    as (s' & v' & temps & E & Hh & _).
  exists s', v', temps. auto.
Defined.

Lemma inverse_kinematics_length_witness :
  ∃ s' v',
    inverse_kinematics (Some (0, 2)) 0%nat (1 / 10) 100 (arm2 (0, 2) false)
      = Ok (0%nat, s') ∧
    heap s' !! 0%nat = Some v' ∧ length v' = 2%nat.
Proof.
  destruct (inverse_kinematics_length (Some (0, 2)) 0%nat (1 / 10) 100
              (arm2 (0, 2) false) [0; 0] eq_refl eq_refl)
    as (s' & v' & E & Ha & Hlen & _).
  exists s', v'. auto.
Defined.

Lemma optimize_link_lengths_equal_share_witness :
  ∃ ll,
    optimize_link_lengths (3, 1) 0%nat notebook_start = Ok (ll, notebook_start) ∧
    length ll = 2%nat.
Proof.
  destruct (optimize_link_lengths_equal_share (3, 1) 0%nat notebook_start 2 eq_refl)
    as (ll & E & Hlen & _).
  exists ll. auto.
Defined.

Lemma origin_target_degenerate_witness :
  ∃ ll, optimize_link_lengths (0, 0) 0%nat (arm2 (0, 0) false)
          = Ok (ll, arm2 (0, 0) false) ∧
        length ll = 2%nat.
Proof.
  destruct (origin_target_degenerate 2 0%nat (arm2 (0, 0) false) [0; 0]
              eq_refl eq_refl)
    as (ll & x & y & E & Hlen & _).
  exists ll. auto.
Defined.

(** X18.  In exact arithmetic the adapted link lengths are never negative,
    and they are positive unless the target is the base [(0, 0)] itself. *)
Theorem optimize_link_lengths_sign T a s ll k l :
  optimize_link_lengths T a s = Ok (ll, s) →
  ll !! k = Some l →
  0 <= l ∧ (T ≠ (0, 0) → 0 < l).
Proof.
  rewrite optimize_link_lengths_spec. intros [= <-] Hk.
  unfold adapted_lengths in Hk. apply lookup_replicate in Hk as [-> Hk]. simpl.
  assert (HN : 0 < INR (num_links s)) by (apply lt_0_INR; lia).
  assert (Hinv : 0 < / INR (num_links s)) by by apply Rinv_0_lt_compat.
  split.
  - apply Rmult_le_pos; [apply sqrt_pos|lra].
  - intros HT. apply Rmult_lt_0_compat; [|done].
    apply sqrt_lt_R0. destruct T as [tx ty]. simpl.
    destruct (Req_dec tx 0) as [->|Hx]; [|nra].
    destruct (Req_dec ty 0) as [->|Hy]; [done|nra].
Qed.

(** ** A target met exactly *)

Lemma R_within_zero_error T : flt (np_linalg_norm (vsub T T)) lit_1e_1 = true.
Proof.
  apply R_lt_true. simpl.
  replace ((T.1 - T.1) * (T.1 - T.1) + (T.2 - T.2) * (T.2 - T.2)) with 0 by lra.
  rewrite sqrt_0. lra.
Qed.

(** ** Instances of the further properties *)

Lemma R_ee_zero_links (N : nat) v : ee_of N (replicate N 0) v = Ok (0, 0).
Proof.
  unfold ee_of.
  destruct (fk_spec N (replicate N 0) v) as (x & y & E & Hx & Hy & _).
  { by rewrite length_replicate. }
  rewrite E. simpl.
  destruct (R_fk_zero_links N v x y E N) as [HxN HyN]; [lia|].
  destruct (py_last_lookup x N Hx) as (ex & Hex & ->).
  destruct (py_last_lookup y N Hy) as (ey & Hey & ->). simpl.
  rewrite HxN in Hex. rewrite HyN in Hey. by injection Hex as <-; injection Hey as <-.
Qed.

Lemma click_origin_within :
  within_tolerance (0, 0) 2 (adapted_lengths (0, 0) 2)
                   (replicate 2 (np_radians (of_nat 45))).
Proof.
  exists (0, 0). rewrite R_adapted_origin. split; [apply R_ee_zero_links|].
  apply (R_within_zero_error (0, 0)).
Qed.

Lemma origin_reached_reachable : reachable origin_reached.
Proof.
  apply (reachable_step click_origin (Tick 0)).
  - by apply (reachable_step notebook_start (ButtonPress (Some 0) (Some 0)));
      [apply reachable_start|].
  - destruct (update_within 0 click_origin (0, 0)
                (replicate 2 (np_radians (of_nat 45)))
                eq_refl eq_refl eq_refl click_origin_within) as [xy E].
    simpl. by mstep E.
Qed.

Lemma arm2_solver_reaches :
  inverse_kinematics (Some (2, 0)) 0%nat (1 / 10) 100 (arm2 (2, 0) false)
    = Ok (0%nat, set_reached_target true
                   (set_link_lengths (adapted_lengths (2, 0) 2)
                      (arm2 (2, 0) false))).
Proof.
  apply (inverse_kinematics_within (2, 0) 0%nat (1 / 10) 99
           (arm2 (2, 0) false) [0; 0] eq_refl arm2_reached_adapted).
Qed.

Lemma forward_kinematics_index_error_witness :
  ∃ x y, forward_kinematics 0%nat (arm2 (2, 0) false)
           = Ok ((x, y), arm2 (2, 0) false) ∧ length x = 3%nat.
Proof.
  destruct (forward_kinematics_index_error 0%nat (arm2 (2, 0) false) [0; 0] eq_refl)
    as [_ Hok].
  destruct Hok as (x & y & E & Hx & _); [simpl; lia|]. by exists x, y.
Defined.

Lemma forward_kinematics_prefix_local_witness :
  ∃ x y x' y',
    forward_kinematics 0%nat arm2_pair = Ok ((x, y), arm2_pair) ∧
    forward_kinematics 1%nat arm2_pair = Ok ((x', y'), arm2_pair) ∧
    x !! 1%nat = x' !! 1%nat ∧ y !! 1%nat = y' !! 1%nat.
Proof.
  destruct (fk_spec 2 [1; 1] [0; 0]) as (x & y & E & _); [simpl; lia|].
  destruct (fk_spec 2 [1; 1] [0; 1 / 100]) as (x' & y' & E' & _); [simpl; lia|].
  pose proof (forward_kinematics_Ok 0%nat arm2_pair [0; 0] (x, y) eq_refl E)
    as Ea.
  pose proof (forward_kinematics_Ok 1%nat arm2_pair [0; 1 / 100] (x', y') eq_refl E')
    as Eb.
  exists x, y, x', y'. split; [exact Ea|]. split; [exact Eb|].
  apply (forward_kinematics_prefix_local 0%nat 1%nat arm2_pair
           [0; 0] [0; 1 / 100] x y x' y' 1 eq_refl eq_refl eq_refl Ea Eb 1%nat).
  lia.
Defined.

Lemma short_arm_adapted : adapted_lengths (0, 3) 3 = [1; 1; 1].
Proof.
  unfold adapted_lengths. simpl.
  replace (0 * 0 + 3 * 3) with (3 * 3) by lra.
  rewrite sqrt_square by lra. repeat f_equal; lra.
Qed.

Lemma short_arm_ee : ee_of 3 (adapted_lengths (0, 3) 3) [0; 0] = Ok (3, 0).
Proof.
  rewrite short_arm_adapted. unfold ee_of, fk. simpl.
  rewrite !Rplus_0_r, cos_0, sin_0. repeat f_equal; lra.
Qed.

Lemma short_arm_far : flt (np_linalg_norm (vsub (0, 3) (3, 0))) lit_1e_1 = false.
Proof.
  apply R_lt_false. simpl.
  replace ((0 - 3) * (0 - 3) + (3 - 0) * (3 - 0)) with 18 by lra.
  apply Rle_trans with (sqrt 1); [rewrite sqrt_1; lra|].
  apply sqrt_le_1; lra.
Qed.

Lemma inverse_kinematics_short_angles_witness :
  inverse_kinematics (Some (0, 3)) 0%nat (1 / 10) 100 short_arm
    = Raise IndexError.
Proof.
  pose proof (inverse_kinematics_short_angles (0, 3) 0%nat (1 / 10) 99 short_arm
                [0; 0] (3, 0) eq_refl ltac:(simpl; lia) short_arm_ee) as E.
  rewrite short_arm_far in E. exact E.
Defined.

Lemma inverse_kinematics_rounds_witness :
  ∃ r s',
    inverse_kinematics (Some (0, 2)) 0%nat (1 / 10) 100 (arm2 (0, 2) false)
      = Ok (0%nat, s') ∧
    (r ≤ 100)%nat ∧ length (heap s') = (1 + r * 2)%nat.
Proof.
  destruct (inverse_kinematics_rounds (0, 2) 0%nat (1 / 10) 100
              (arm2 (0, 2) false) [0; 0] eq_refl eq_refl)
    as (r & s' & E & Hlen & Hr & _).
  exists r, s'. auto.
Defined.

Lemma inverse_kinematics_extra_angles_witness :
  ∃ s1' s2' v' w',
    inverse_kinematics (Some (0, 2)) 0%nat (1 / 10) 100 arm2_long
      = Ok (0%nat, s1') ∧
    inverse_kinematics (Some (0, 2)) 0%nat (1 / 10) 100 (arm2 (0, 2) false)
      = Ok (0%nat, s2') ∧
    heap s1' !! 0%nat = Some v' ∧ heap s2' !! 0%nat = Some w' ∧
    reached_target s2' = reached_target s1' ∧
    take 2 v' = take 2 w' ∧
    length v' = 3%nat ∧ length w' = 2%nat ∧
    v' !! 2%nat = Some 7.
Proof.
  destruct (inverse_kinematics_extra_angles (Some (0, 2)) 0%nat (1 / 10) 100
              arm2_long (arm2 (0, 2) false) [0; 0; 7] [0; 0]
              eq_refl eq_refl eq_refl eq_refl)
    as (s1' & s2' & v' & w' & E1 & E2 & Ha1 & Ha2 & Hr & Htake & Hlv & Hlw & Hdv & _);
    [simpl; lia|simpl; lia|done|].
  exists s1', s2', v', w'. split_and!; try done.
  rewrite <- (Nat.add_0_r 2), <- lookup_drop. simpl in Hdv. by rewrite Hdv.
Defined.

Lemma notebook_start_well_formed : well_formed (notebook_start (F := R)).
Proof. by exists (replicate 2 (np_radians (of_nat 45))), (of_nat 3, of_nat 1). Qed.

Lemma notebook_start_flag_truthful : flag_truthful (notebook_start (F := R)).
Proof. intros Hb. simpl in Hb. done. Qed.

Lemma update_tick_witness :
  ∃ x y s',
    update 0 (notebook_start (F := R)) = Ok ((x, y), s') ∧
    movement_count s' = 1%nat ∧ length x = 3%nat.
Proof.
  destruct (update_tick 0 notebook_start
              notebook_start_well_formed notebook_start_flag_truthful)
    as (x & y & s' & E & _ & Hx & _ & Hc & _).
  exists x, y, s'. auto.
Defined.

Lemma reachable_flag_true_within_tolerance_witness :
  ∃ v T,
    heap origin_reached !! angles origin_reached = Some v ∧
    target origin_reached = Some T ∧
    within_tolerance T (num_links origin_reached)
                     (link_lengths origin_reached) v.
Proof.
  destruct (reachable_flag_true_within_tolerance origin_reached
              origin_reached_reachable eq_refl)
    as (v & T & Ha & HT & _ & Hin).
  exists v, T. auto.
Defined.

Lemma reachable_shape_witness :
  ∃ v l,
    heap (notebook_start (F := R)) !! 0%nat = Some v ∧ length v = 2%nat ∧
    link_lengths (notebook_start (F := R)) = replicate 2 l.
Proof.
  destruct (reachable_shape (notebook_start (F := R)) reachable_start)
    as (v & T & l & Ha & Hv & _ & _ & Hl).
  exists v, l. auto.
Defined.

Lemma reached_absorbs_ticks_witness :
  handle_all (Tick <$> [0; 1; 2]%nat) origin_reached = Ok (tt, origin_reached).
Proof.
  exact (reached_absorbs_ticks origin_reached [0; 1; 2]%nat
           origin_reached_reachable eq_refl).
Defined.

Lemma click_then_tick_witness :
  ∃ s2,
    handle_all [ButtonPress (Some 1) (Some 2); Tick 0] (notebook_start (F := R))
      = Ok (tt, s2) ∧
    target s2 = Some (1, 2) ∧ movement_count s2 = 1%nat.
Proof.
  destruct (click_then_tick 1 2 0 notebook_start notebook_start_well_formed)
    as (_ & s1 & s2 & _ & _ & _ & _ & _ & _ & _ & _ & _ & E & HT & Hc & _).
  exists s2. auto.
Defined.

Lemma optimize_link_lengths_sign_witness :
  ∃ l, adapted_lengths (0, 2) 2 !! 0%nat = Some l ∧ 0 < l.
Proof.
  destruct (lookup_lt_is_Some_2 (adapted_lengths (0, 2) 2) 0)
    as [l Hl]; [unfold adapted_lengths; rewrite length_replicate; lia|].
  exists l. split; [exact Hl|].
  apply (optimize_link_lengths_sign (0, 2) 0%nat (arm2 (0, 2) false)
           (adapted_lengths (0, 2) 2) 0 l eq_refl Hl).
  intros [= H2]. lra.
Defined.

Lemma handle_total_witness :
  ∃ s', handle (SliderChanged 5) (notebook_start (F := R)) = Ok (tt, s').
Proof. exact (handle_total (SliderChanged 5) notebook_start reachable_start). Defined.

Lemma inverse_kinematics_twice_witness :
  inverse_kinematics (Some (2, 0)) 0%nat (1 / 2) 7
    (set_reached_target true
       (set_link_lengths (adapted_lengths (2, 0) 2) (arm2 (2, 0) false)))
  = Ok (0%nat,
        set_reached_target true
          (set_link_lengths (adapted_lengths (2, 0) 2) (arm2 (2, 0) false))).
Proof.
  exact (inverse_kinematics_twice (2, 0) 0%nat (1 / 10) 99 (1 / 2) 7
           (arm2 (2, 0) false) [0; 0] _ eq_refl
           ltac:(simpl; lia) arm2_solver_reaches eq_refl).
Defined.

Lemma reachable_reached_solver_noop_witness :
  inverse_kinematics (target origin_reached) (angles origin_reached) (1 / 10) 100
    origin_reached
  = Ok (angles origin_reached, origin_reached).
Proof.
  exact (reachable_reached_solver_noop origin_reached (1 / 10) 100
           origin_reached_reachable eq_refl).
Defined.

End RealArithmetic.
